(** * Task-Analyzer: scoring, cycle detection and the two task endpoints

    A shallow embedding of [backend/tasks/scoring.py] and
    [backend/tasks/views.py].

    Conventions of the embedding.
    - A Python [float] is a binary64 number: Rocq's primitive [float], whose
      operations round to nearest-even exactly as CPython's do.
    - A Python [int] is a [Z].
    - A [datetime.date] is identified with its proleptic Gregorian ordinal
      ([date.toordinal()]); the only operation the code applies to dates is
      subtraction followed by [.days].
    - A Python [str] is represented by its UTF-8 encoding: a [string] is a
      sequence of bytes, and [code_points] cuts it into its characters.
    - A task is a dictionary from field names to dynamically typed values
      ([gmap string value]).
    - A raised exception is the [Raise] branch of [result].
    - [date.today()] is an explicit argument [today].
    - [dfs] is a recursive Python function, so every nested call takes a
      frame and the interpreter raises [RecursionError] when its recursion
      limit leaves none. How many frames are left when the search starts
      depends on the limit and on how deep the caller already is; it is the
      runtime's [recursion_frames]. *)

From Stdlib Require Import ZArith QArith Floats Ascii String List Lia.
From stdpp Require Import base option list gmap strings sets pretty sorting.

Set Warnings "-inexact-float,-register-all".
Local Open Scope Z_scope.

(** ** Exceptions and the error monad *)

Inductive pytype :=
| TNone | TBool | TInt | TFloat | TStr | TDate | TList.

Inductive exn :=
| TypeError
| ValueError
| InvalidDateString (d : string)   (* ValueError(f"Invalid date string: {d!r}") *)
| InvalidDateType (ty : pytype)    (* ValueError(f"Invalid date type: {type(d)}") *)
| OverflowError
| ZeroDivisionError
| KeyError (k : string)
| RecursionError.

Inductive result (A : Type) :=
| Ok (a : A)
| Raise (e : exn).
Arguments Ok {A} a.
Arguments Raise {A} e.

#[export] Instance result_ret : MRet result := fun _ a => Ok a.
#[export] Instance result_bind : MBind result := fun _ _ f m =>
  match m with Ok a => f a | Raise e => Raise e end.

(** [try: m except Exception: d] *)
Definition try_except {A} (m : result A) (d : A) : A :=
  match m with Ok a => a | Raise _ => d end.

(** ** Values *)

Record date := Date { toordinal : Z }.

Inductive value :=
| VNone
| VBool (b : bool)
| VInt (n : Z)
| VFloat (f : float)
| VStr (s : string)
| VDate (d : date)
| VList (l : list value).

Abbreviation task := (gmap string value).

Definition type_of (v : value) : pytype :=
  match v with
  | VNone => TNone | VBool _ => TBool | VInt _ => TInt | VFloat _ => TFloat
  | VStr _ => TStr | VDate _ => TDate | VList _ => TList
  end.

(** Truth value testing ([bool(v)]). *)
Definition truthy (v : value) : bool :=
  match v with
  | VNone => false
  | VBool b => b
  | VInt n => negb (n =? 0)
  | VFloat f => negb (f =? 0)%float
  | VStr s => negb (String.eqb s "")
  | VDate _ => true
  | VList l => match l with [] => false | _ => true end
  end.

(** [a or b] *)
Definition py_or (a b : value) : value := if truthy a then a else b.

(** [d.get(k)] and [d.get(k, default)] *)
Definition dict_get (t : task) (k : string) : value := default VNone (t !! k).
Definition dict_get_default (t : task) (k : string) (d : value) : value :=
  default d (t !! k).

(** [d[k]] *)
Definition dict_item (t : task) (k : string) : result value :=
  match t !! k with Some v => Ok v | None => Raise (KeyError k) end.

(** ** Numeric conversions *)

(** Round-half-even quotient of two positive integers. *)
Definition div_half_even (a b : Z) : Z :=
  let q := a / b in
  let r := a mod b in
  match 2 * r ?= b with
  | Lt => q
  | Gt => q + 1
  | Eq => if Z.even q then q else q + 1
  end.

(** [floor (log2 (p / q))] for positive [p], [q]. *)
Definition log2_ratio (p q : Z) : Z :=
  let k := Z.log2 p - Z.log2 q in
  if (if 0 <=? k then p <? q * 2 ^ k else p * 2 ^ (- k) <? q) then k - 1 else k.

(** The binary64 number nearest to [p / q] (ties to even), for positive
    [p] and [q]; infinity when the quotient is beyond the finite range. *)
Definition float_of_ratio (p q : Z) : float :=
  let k := log2_ratio p q in
  let s := Z.min (52 - k) 1074 in
  let m := if 0 <=? s then div_half_even (p * 2 ^ s) q
           else div_half_even p (q * 2 ^ (- s)) in
  Z.ldexp (of_uint63 (Uint63.of_Z m)) (- s).

(** [float(n)] for an [int]: correctly rounded, [OverflowError] beyond the
    finite range. *)
Definition float_of_int (n : Z) : result float :=
  match n with
  | Z0 => Ok 0%float
  | Zpos _ =>
      let f := float_of_ratio n 1 in
      if is_infinity f then Raise OverflowError else Ok f
  | Zneg _ =>
      let f := float_of_ratio (- n) 1 in
      if is_infinity f then Raise OverflowError else Ok (- f)%float
  end.

(** [float(n)] for a length [n]. [len] never exceeds [sys.maxsize], which
    is below [2 ^ 63], so the conversion is the primitive one. *)
Definition float_of_len (n : nat) : float := of_uint63 (Uint63.of_Z (Z.of_nat n)).

(** [int(f)] for a [float]: truncation towards zero. *)
Definition int_of_float (f : float) : result Z :=
  match Prim2SF f with
  | S754_zero _ => Ok 0
  | S754_infinity _ => Raise OverflowError
  | S754_nan => Raise ValueError
  | S754_finite s m e =>
      let a := if 0 <=? e then Z.shiftl (Zpos m) e else Z.shiftr (Zpos m) (- e) in
      Ok (if s then - a else a)
  end.

(** The parts of the Python runtime that the code calls on strings, and
    [round(x, 3)]. What [datetime.fromisoformat] accepts depends on the
    interpreter version, so the development is parametric in these
    functions; [ref_runtime] below is a concrete instance. *)
Class PyRuntime := {
  str_to_int : string → option Z;          (* int(s) *)
  str_to_float : string → option float;    (* float(s) *)
  fromisoformat : string → option date;    (* datetime.fromisoformat(s).date() *)
  round3 : float → float;                  (* round(x, 3) *)
  recursion_frames : nat                   (* frames left for the calls of dfs *)
}.

Section Conversions.
Context {R : PyRuntime}.

(** [float(v)] *)
Definition py_float (v : value) : result float :=
  match v with
  | VBool b => Ok (if b then 1 else 0)%float
  | VInt n => float_of_int n
  | VFloat f => Ok f
  | VStr s => match str_to_float s with Some f => Ok f | None => Raise ValueError end
  | VNone | VDate _ | VList _ => Raise TypeError
  end.

(** [int(v)] *)
Definition py_int (v : value) : result Z :=
  match v with
  | VBool b => Ok (if b then 1 else 0)
  | VInt n => Ok n
  | VFloat f => int_of_float f
  | VStr s => match str_to_int s with Some n => Ok n | None => Raise ValueError end
  | VNone | VDate _ | VList _ => Raise TypeError
  end.

End Conversions.

(** A continuation byte of a UTF-8 sequence: [10xxxxxx]. *)
Definition is_continuation (c : ascii) : bool :=
  match c with Ascii _ _ _ _ _ _ b6 b7 => b7 && negb b6 end.

Definition starts_with_continuation (s : string) : bool :=
  match s with String c _ => is_continuation c | EmptyString => false end.

(** The characters of a text: each leading byte with the continuation
    bytes that follow it. *)
Fixpoint code_points (s : string) : list string :=
  match s with
  | EmptyString => []
  | String c s' =>
      match code_points s' with
      | p :: ps =>
          if starts_with_continuation s' then String c p :: ps
          else String c EmptyString :: p :: ps
      | [] => [String c EmptyString]
      end
  end.

(** [len(v)] *)
Definition py_len (v : value) : result nat :=
  match v with
  | VStr s => Ok (length (code_points s))
  | VList l => Ok (length l)
  | _ => Raise TypeError
  end.

(** The items that [for d in v] visits. A string yields its characters. *)
Definition py_iter (v : value) : result (list value) :=
  match v with
  | VList l => Ok l
  | VStr s => Ok (VStr <$> code_points s)
  | _ => Raise TypeError
  end.

(** ** scoring.py *)

Section Scoring.
Context {R : PyRuntime}.

(** [d.split("T", 1)[0]]: the text before the first ['T'], the whole string
    when there is none. *)
Fixpoint before_T (s : string) : string :=
  match s with
  | EmptyString => EmptyString
  | String c s' => if Ascii.eqb c "T" then EmptyString else String c (before_T s')
  end.

Definition _ensure_date (d : value) : result date :=
  match d with
  | VDate d' => Ok d'
  | VStr s =>
      match fromisoformat s with
      | Some r => Ok r
      | None =>
          match fromisoformat (before_T s) with
          | Some r => Ok r
          | None => Raise (InvalidDateString s)
          end
      end
  | _ => Raise (InvalidDateType (type_of d))
  end.

(** [(due_date - today).days] *)
Definition days_between (due_date today : date) : Z :=
  toordinal due_date - toordinal today.

Definition calculate_urgency (today due_date : date) : float :=
  let days_left := days_between due_date today in
  if days_left <? 0 then 10.0%float
  else if days_left =? 0 then 9.0%float
  else if days_left <=? 3 then 7.0%float
  else if days_left <=? 7 then 5.0%float
  else 3.0%float.

(** [a / b] on floats raises [ZeroDivisionError] when [b] is zero. *)
Definition float_div (a b : float) : result float :=
  if (b =? 0)%float then Raise ZeroDivisionError else Ok (a / b)%float.

Definition calculate_effort_score (hours : value) : result float :=
  let h := try_except (py_float hours) 0%float in
  float_div 10.0 (h + 1.0).

(** *** The dependency graph: an insertion-ordered dictionary *)

Definition graph := list (Z * list Z).

(** [graph[k] = v] *)
Fixpoint graph_set (g : graph) (k : Z) (v : list Z) : graph :=
  match g with
  | [] => [(k, v)]
  | (k', v') :: g' =>
      if decide (k' = k) then (k, v) :: g' else (k', v') :: graph_set g' k v
  end.

(** [graph.get(k, [])] *)
Fixpoint graph_get (g : graph) (k : Z) : list Z :=
  match g with
  | [] => []
  | (k', v') :: g' => if decide (k' = k) then v' else graph_get g' k
  end.

(** [list(graph.keys())] *)
Definition graph_keys (g : graph) : list Z := g.*1.

(** The loop over [deps_raw]: entries that [int] rejects are skipped, the
    others are kept in order without repeats. *)
Definition seen_deps_step (seen_deps : list Z) (d : value) : list Z :=
  match py_int d with
  | Ok di => if decide (di ∈ seen_deps) then seen_deps else seen_deps ++ [di]
  | Raise _ => seen_deps
  end.

Definition collect_deps (deps_raw : list value) : list Z :=
  foldl seen_deps_step [] deps_raw.

(** [int(t.get("id") or (idx + 1))] *)
Definition task_id (idx : nat) (t : task) : result Z :=
  py_int (py_or (dict_get t "id") (VInt (Z.of_nat idx + 1))).

Fixpoint build_graph_from (idx : nat) (tasks : list task) (g : graph) : result graph :=
  match tasks with
  | [] => Ok g
  | t :: rest =>
      match task_id idx t with
      | Raise _ => build_graph_from (S idx) rest g
      | Ok tid =>
          deps_raw ← py_iter (py_or (dict_get t "dependencies") (VList []));
          build_graph_from (S idx) rest (graph_set g tid (collect_deps deps_raw))
      end
  end.

Definition build_graph (tasks : list task) : result graph :=
  build_graph_from 0 tasks [].

End Scoring.

(** *** Depth-first search *)

Record dfs_state := DfsState {
  visited : gset Z;
  stack : list Z;
  cycles : list (list Z);
  seen_cycles : gset (list Z)
}.

Definition dfs_init : dfs_state := DfsState ∅ [] [] ∅.

(** [l.index(x)] for an [x] that occurs in [l] *)
Fixpoint index_of (x : Z) (l : list Z) : nat :=
  match l with
  | [] => 0
  | y :: l' => if decide (y = x) then 0 else S (index_of x l')
  end.

(** [min(range(len(l)), key=lambda i: l[i])]: the first index of a least
    element. *)
Fixpoint argmin_from (best_i : nat) (best : Z) (i : nat) (l : list Z) : nat :=
  match l with
  | [] => best_i
  | x :: l' =>
      if x <? best then argmin_from i x (S i) l' else argmin_from best_i best (S i) l'
  end.

Definition argmin (l : list Z) : nat :=
  match l with
  | [] => 0
  | x :: l' => argmin_from 0 x 1 l'
  end.

(** The rotation of a closed path to its least node. *)
Definition canonical (cycle : list Z) : list Z :=
  if (1 <? length cycle)%nat then
    let min_idx := argmin (take (length cycle - 1) cycle) in
    drop min_idx (take (length cycle - 1) cycle)
      ++ take min_idx cycle ++ [default 0 (cycle !! min_idx)]
  else cycle.

(** The branch of [dfs] taken when [node] is on the stack. *)
Definition record_cycle (node : Z) (st : dfs_state) : dfs_state :=
  let idx_in_stack := index_of node (stack st) in
  let cycle := drop idx_in_stack (stack st) ++ [node] in
  let ordered := canonical cycle in
  if decide (ordered ∈ seen_cycles st) then st
  else DfsState (visited st) (stack st) (cycles st ++ [ordered])
                ({[ordered]} ∪ seen_cycles st).

(** [stack.pop()] *)
Definition pop (l : list Z) : list Z := take (length l - 1) l.

Definition enter (node : Z) (st : dfs_state) : dfs_state :=
  DfsState ({[node]} ∪ visited st) (stack st ++ [node]) (cycles st) (seen_cycles st).

Definition leave (st : dfs_state) : dfs_state :=
  DfsState (visited st) (pop (stack st)) (cycles st) (seen_cycles st).

(** [dfs node] with [frames] Python frames left; [None] stands for the
    [RecursionError] that unwinds the whole search. The call takes one
    frame. On a back edge the cycle always has two entries or more, so
    [min] calls its [key] function, a [lambda], which takes one more. *)
Fixpoint dfs (frames : nat) (g : graph) (node : Z) (st : dfs_state) : option dfs_state :=
  match frames with
  | O => None
  | S fuel' =>
      if decide (node ∈ stack st) then
        match fuel' with O => None | S _ => Some (record_cycle node st) end
      else if decide (node ∈ visited st) then Some st
      else
        leave <$> foldl (λ acc neighbour, acc ≫= dfs fuel' g neighbour)
                        (Some (enter node st)) (graph_get g node)
  end.

(** The loop over [list(graph.keys())]. *)
Definition dfs_roots (frames : nat) (g : graph) (roots : list Z) (st : dfs_state)
  : option dfs_state :=
  foldl (λ acc n, acc ≫= λ st, if decide (n ∈ visited st) then Some st else dfs frames g n st)
        (Some st) roots.

(** The search over the graph, started with [frames] frames left. *)
Definition find_cycles (frames : nat) (g : graph) : result (list (list Z)) :=
  match dfs_roots frames g (graph_keys g) dfs_init with
  | Some st => Ok (cycles st)
  | None => Raise RecursionError
  end.

Section Priority.
Context {R : PyRuntime}.

Definition detect_circular_dependencies (tasks : list task) : result (list (list Z)) :=
  g ← build_graph tasks; find_cycles recursion_frames g.

Definition weight (weights : gmap string float) (k : string) (d : float) : float :=
  default d (weights !! k).

Definition calculate_priority (today : date) (t : task) (all_tasks : list task)
    (weights : gmap string float) : result float :=
  raw ← dict_item t "due_date";
  due ← _ensure_date raw;
  let urgency := calculate_urgency today due in
  importance ← py_float (dict_get_default t "importance" (VInt 1));
  hours ← py_float (dict_get_default t "estimated_hours" (VInt 0));
  effort_score ← calculate_effort_score (VFloat hours);
  dependency_count ← py_len (py_or (dict_get t "dependencies") (VList []));
  let score := (weight weights "urgency" 0.4 * urgency
                + weight weights "importance" 0.4 * importance
                + weight weights "effort" 0.15 * effort_score
                + weight weights "dependency" 0.05 * float_of_len dependency_count)%float in
  Ok (round3 score).

End Priority.

(** ** views.py *)

Definition DEFAULT_WEIGHTS : gmap string float :=
  <["urgency" := 0.4%float]> (<["importance" := 0.4%float]>
    (<["effort" := 0.15%float]> (<["dependency" := 0.05%float]> ∅))).

(** [assign_ids] mutates the task dictionaries in place; the embedding
    returns the updated batch, which every later step of a request uses. *)
Definition assign_ids (tasks : list task) : list task :=
  imap (λ i t, match t !! "id" with
               | Some _ => t
               | None => <["id" := VInt (Z.of_nat i + 1)]> t
               end) tasks.

Inductive body :=
| CycleError (error : string) (cycles : list (list Z))
| TaskList (items : list task)
| Top3 (items : list task).

Record response := Response { data : body; status : Z }.

Definition HTTP_200_OK : Z := 200.
Definition HTTP_400_BAD_REQUEST : Z := 400.

(** Stable insertion of a keyed item into a list in descending key order:
    the item goes before the first entry whose key is not greater. *)
Fixpoint insert_desc {A} (x : float * A) (l : list (float * A)) : list (float * A) :=
  match l with
  | [] => [x]
  | y :: l' => if (x.1 <? y.1)%float then y :: insert_desc x l' else x :: y :: l'
  end.

(** [sorted(keyed, key=fst, reverse=True)]: a stable sort. For keys that
    are pairwise comparable its result is the only stably sorted
    arrangement, whichever algorithm computes it. *)
Definition sort_desc {A} (l : list (float * A)) : list (float * A) :=
  foldr insert_desc [] l.

Section Views.
Context {R : PyRuntime}.

Fixpoint score_each (today : date) (all_tasks : list task) (weights : gmap string float)
    (tasks : list task) : result (list task) :=
  match tasks with
  | [] => Ok []
  | t :: rest =>
      score ← calculate_priority today t all_tasks weights;
      scored ← score_each today all_tasks weights rest;
      Ok (<["score" := VFloat score]> t :: scored)
  end.

Definition score_tasks (today : date) (tasks : list task) (weights : gmap string float)
  : result (list task) :=
  score_each today tasks weights tasks.

Definition _parse_date_safe (d : value) : option date :=
  match d with
  | VDate d' => Some d'
  | VStr s =>
      match fromisoformat s with
      | Some r => Some r
      | None => fromisoformat (before_T s)
      end
  | _ => None
  end.

Definition check_and_respond_cycles (tasks : list task) : result (option response) :=
  cycles ← detect_circular_dependencies tasks;
  match cycles with
  | [] => Ok None
  | _ => Ok (Some (Response (CycleError "Circular dependencies detected" cycles)
                            HTTP_400_BAD_REQUEST))
  end.

(** [x['score']], the sort key of a scored item. *)
Definition item_score (x : task) : result float :=
  v ← dict_item x "score";
  match v with VFloat f => Ok f | _ => py_float v end.

Fixpoint with_keys (items : list task) : result (list (float * task)) :=
  match items with
  | [] => Ok []
  | x :: rest => k ← item_score x; keyed ← with_keys rest; Ok ((k, x) :: keyed)
  end.

(** [sorted(items, key=lambda x: x['score'], reverse=True)] *)
Definition sorted_by_score (items : list task) : result (list task) :=
  keyed ← with_keys items; Ok ((sort_desc keyed).*2).

(** [AnalyzeTasks.post], from the validated request data on. *)
Definition AnalyzeTasks_post (today : date) (validated_data : list task) : result response :=
  let tasks := assign_ids validated_data in
  cycle_resp ← check_and_respond_cycles tasks;
  match cycle_resp with
  | Some r => Ok r
  | None =>
      scored ← score_tasks today tasks DEFAULT_WEIGHTS;
      scored_sorted ← sorted_by_score scored;
      Ok (Response (TaskList scored_sorted) HTTP_200_OK)
  end.

(** [v >= 8] *)
Definition py_ge_8 (v : value) : result bool :=
  match v with
  | VBool _ => Ok false
  | VInt n => Ok (8 <=? n)
  | VFloat f => Ok (8 <=? f)%float
  | VNone | VStr _ | VDate _ | VList _ => Raise TypeError
  end.

(** [str(n)] for an [int] *)
Definition str_of_int (n : Z) : string := pretty n.

(** The phrase for the due date. *)
Definition due_phrase (today : date) (due_raw : value) : list string :=
  match _parse_date_safe due_raw with
  | Some due_dt =>
      let days_left := days_between due_dt today in
      if days_left <? 0 then ["Overdue"]
      else if days_left =? 0 then ["Due today"]
      else if days_left <=? 3 then ["Due in " +:+ str_of_int days_left +:+ " day(s)"]
      else []
  | None => []
  end.

(** The body of the loop of [SuggestTasks.post] up to the join. *)
Definition explanation_parts (today : date) (t : task) : result (list string) :=
  let parts := due_phrase today (dict_get t "due_date") in
  high ← py_ge_8 (dict_get_default t "importance" (VInt 0));
  let parts := parts ++ (if (high : bool) then ["High importance"] else []) in
  let est := try_except (py_float (dict_get_default t "estimated_hours" (VInt 999)))
                        999.0%float in
  let parts := parts ++ (if (est <=? 2)%float then ["Quick win (low effort)"] else []) in
  let deps := py_or (dict_get t "dependencies") (VList []) in
  if truthy deps then
    n ← py_len deps;
    Ok (parts ++ ["Blocks " +:+ str_of_int (Z.of_nat n) +:+ " task(s)"])
  else Ok parts.

(** [' · '.join(explanation_parts) or 'Balanced factors'] *)
Definition join_parts (parts : list string) : string :=
  let s := String.concat " · " parts in
  if String.eqb s "" then "Balanced factors" else s.

Definition explain (today : date) (t : task) : result task :=
  parts ← explanation_parts today t;
  Ok (<["explanation" := VStr (join_parts parts)]> t).

Fixpoint explain_each (today : date) (scored : list task) : result (list task) :=
  match scored with
  | [] => Ok []
  | item :: rest =>
      t ← explain today item;
      scored_with_expl ← explain_each today rest;
      Ok (t :: scored_with_expl)
  end.

(** [SuggestTasks.post], from the validated request data on. *)
Definition SuggestTasks_post (today : date) (validated_data : list task) : result response :=
  let tasks := assign_ids validated_data in
  cycle_resp ← check_and_respond_cycles tasks;
  match cycle_resp with
  | Some r => Ok r
  | None =>
      scored ← score_tasks today tasks DEFAULT_WEIGHTS;
      scored_with_expl ← explain_each today scored;
      sorted ← sorted_by_score scored_with_expl;
      Ok (Response (Top3 (take 3 sorted)) HTTP_200_OK)
  end.

End Views.

(** ** A reference runtime

    A concrete [PyRuntime] for ASCII text, used to evaluate the code on
    examples. [ref_fromisoformat] accepts [YYYY-MM-DD], optionally followed
    by one separator character and [HH:MM[:SS]]: the inputs on which all
    CPython versions agree. Its [recursion_frames] are the 997 frames that
    CPython 3.11 leaves to [dfs] under the default recursion limit of 1000
    when a script calls the detector directly. *)

Module Ref.

Definition code (c : ascii) : Z := Z.of_nat (nat_of_ascii c).

(** What [int] and [float] skip around the digits of an ASCII text: the
    whitespace of the C locale. *)
Definition is_space (c : ascii) : bool :=
  ((9 <=? code c) && (code c <=? 13)) || (code c =? 32).

Definition digit_of (c : ascii) : option Z :=
  if (48 <=? code c) && (code c <=? 57) then Some (code c - 48) else None.

Fixpoint lstrip (l : list ascii) : list ascii :=
  match l with
  | c :: l' => if is_space c then lstrip l' else l
  | [] => []
  end.

Definition strip (l : list ascii) : list ascii := rev (lstrip (rev (lstrip l))).

(** The digits that follow a digit, single underscores between digits
    allowed: the number read so far, how many digits, and what is left. *)
Fixpoint digit_run (acc : Z) (n : nat) (l : list ascii) : Z * nat * list ascii :=
  match l with
  | [] => (acc, n, [])
  | c :: l' =>
      match digit_of c with
      | Some d => digit_run (10 * acc + d) (S n) l'
      | None =>
          if Ascii.eqb c "_" then
            match l' with
            | c2 :: l'' =>
                match digit_of c2 with
                | Some d => digit_run (10 * acc + d) (S n) l''
                | None => (acc, n, l)
                end
            | [] => (acc, n, l)
            end
          else (acc, n, l)
      end
  end.

Definition digitpart (l : list ascii) : option (Z * nat * list ascii) :=
  match l with
  | c :: l' => match digit_of c with Some d => Some (digit_run d 1 l') | None => None end
  | [] => None
  end.

(** An optional sign: [true] for minus. *)
Definition sign (l : list ascii) : bool * list ascii :=
  match l with
  | c :: l' =>
      if Ascii.eqb c "-" then (true, l')
      else if Ascii.eqb c "+" then (false, l') else (false, l)
  | [] => (false, [])
  end.

Definition int_of_chars (l : list ascii) : option Z :=
  let '(neg, l) := sign (strip l) in
  match digitpart l with
  | Some (v, _, []) => Some (if neg then - v else v)
  | _ => None
  end.

Definition lower (c : ascii) : ascii :=
  if (65 <=? code c) && (code c <=? 90) then ascii_of_nat (nat_of_ascii c + 32) else c.

(** [[digitpart] "." digitpart | digitpart ["."]]: mantissa, number of
    digits read, number of fraction digits, and what is left. *)
Definition number (l : list ascii) : option (Z * nat * nat * list ascii) :=
  match digitpart l with
  | Some (a, na, rest) =>
      match rest with
      | c :: rest' =>
          if Ascii.eqb c "." then
            match digitpart rest' with
            | Some (_, nb, rest'') =>
                let '(m, _, _) := digit_run a na rest' in Some (m, (na + nb)%nat, nb, rest'')
            | None => Some (a, na, 0%nat, rest')
            end
          else Some (a, na, 0%nat, rest)
      | [] => Some (a, na, 0%nat, [])
      end
  | None =>
      match l with
      | c :: rest' =>
          if Ascii.eqb c "." then
            match digitpart rest' with
            | Some (b, nb, rest'') => Some (b, nb, nb, rest'')
            | None => None
            end
          else None
      | [] => None
      end
  end.

Definition exponent (l : list ascii) : option (Z * list ascii) :=
  match l with
  | c :: l' =>
      if Ascii.eqb (lower c) "e" then
        let '(neg, l'') := sign l' in
        match digitpart l'' with
        | Some (v, _, rest) => Some (if neg then - v else v, rest)
        | None => None
        end
      else Some (0, l)
  | [] => Some (0, [])
  end.

(** The float nearest to [m * 10 ^ e], for [m] of at most [nd] digits. *)
Definition float_of_decimal (m : Z) (nd : nat) (e : Z) : float :=
  if m =? 0 then 0%float
  else if 400 <? e then infinity
  else if e + Z.of_nat nd <? -330 then 0%float
  else if 0 <=? e then float_of_ratio (m * 10 ^ e) 1
  else float_of_ratio m (10 ^ (- e)).

Definition float_of_chars (l : list ascii) : option float :=
  let '(neg, l) := sign (strip l) in
  let apply_sign (f : float) := if neg then (- f)%float else f in
  let word := string_of_list_ascii (lower <$> l) in
  if String.eqb word "inf" || String.eqb word "infinity" then Some (apply_sign infinity)
  else if String.eqb word "nan" then Some nan
  else
    match number l with
    | Some (m, nd, nb, rest) =>
        match exponent rest with
        | Some (e, []) => Some (apply_sign (float_of_decimal m nd (e - Z.of_nat nb)))
        | _ => None
        end
    | None => None
    end.

Definition two_digits (c1 c2 : ascii) : option Z :=
  d1 ← digit_of c1; d2 ← digit_of c2; Some (10 * d1 + d2).

Definition is_leap (y : Z) : bool :=
  (y mod 4 =? 0) && (negb (y mod 100 =? 0) || (y mod 400 =? 0)).

Definition days_in_month (y m : Z) : Z :=
  if m =? 2 then (if is_leap y then 29 else 28)
  else if (m =? 4) || (m =? 6) || (m =? 9) || (m =? 11) then 30 else 31.

Definition days_before_year (y : Z) : Z :=
  let y' := y - 1 in y' * 365 + y' / 4 - y' / 100 + y' / 400.

Definition days_before_month (y m : Z) : Z :=
  foldr Z.add 0 (days_in_month y <$> seqZ 1 (m - 1)).

(** [date(y, m, d)], when the three numbers name a day. *)
Definition ymd (y m d : Z) : option date :=
  if (1 <=? y) && (1 <=? m) && (m <=? 12) && (1 <=? d) && (d <=? days_in_month y m)
  then Some (Date (days_before_year y + days_before_month y m + d))
  else None.

Definition date_of_chars (l : list ascii) : option (date * list ascii) :=
  match l with
  | y1 :: y2 :: y3 :: y4 :: s1 :: m1 :: m2 :: s2 :: d1 :: d2 :: rest =>
      if Ascii.eqb s1 "-" && Ascii.eqb s2 "-" then
        yh ← two_digits y1 y2; yl ← two_digits y3 y4;
        m ← two_digits m1 m2; d ← two_digits d1 d2;
        r ← ymd (100 * yh + yl) m d; Some (r, rest)
      else None
  | _ => None
  end.

Definition time_ok (l : list ascii) : bool :=
  match l with
  | [h1; h2; s1; m1; m2] =>
      Ascii.eqb s1 ":" &&
      match two_digits h1 h2, two_digits m1 m2 with
      | Some h, Some m => (h <? 24) && (m <? 60)
      | _, _ => false
      end
  | [h1; h2; s1; m1; m2; s2; c1; c2] =>
      Ascii.eqb s1 ":" && Ascii.eqb s2 ":" &&
      match two_digits h1 h2, two_digits m1 m2, two_digits c1 c2 with
      | Some h, Some m, Some s => (h <? 24) && (m <? 60) && (s <? 60)
      | _, _, _ => false
      end
  | _ => false
  end.

Definition ref_fromisoformat (s : string) : option date :=
  match date_of_chars (list_ascii_of_string s) with
  | Some (r, []) => Some r
  | Some (r, _ :: t) => if time_ok t then Some r else None
  | None => None
  end.

(** [round(x, 3)]: the decimal with three fraction digits nearest to the
    exact value of [x] (ties to even), then the float nearest to it. *)
Definition ref_round3 (x : float) : float :=
  match Prim2SF x with
  | S754_finite s m e =>
      if 0 <=? e then x
      else
        let n := div_half_even (Zpos m * 1000) (2 ^ (- e)) in
        let r := if n =? 0 then 0%float else float_of_ratio n 1000 in
        if s then (- r)%float else r
  | _ => x
  end.

Definition ref_str_to_int (s : string) : option Z :=
  int_of_chars (list_ascii_of_string s).

Definition ref_str_to_float (s : string) : option float :=
  float_of_chars (list_ascii_of_string s).

End Ref.

#[export] Instance ref_runtime : PyRuntime := {|
  str_to_int := Ref.ref_str_to_int;
  str_to_float := Ref.ref_str_to_float;
  fromisoformat := Ref.ref_fromisoformat;
  round3 := Ref.ref_round3;
  recursion_frames := 997
|}.

(** * Vocabulary of the properties *)

(** [edge u v]: task [u] lists [v] among its dependencies. *)
Definition edge (g : graph) (u v : Z) : Prop := v ∈ graph_get g u.

(** Consecutive entries of a chain are edges. *)
Definition chain (g : graph) (l : list Z) : Prop :=
  ∀ l1 u v l2, l = l1 ++ u :: v :: l2 → edge g u v.

(** The graph has a cycle: a node reaches itself in one step or more. *)
Definition has_cycle (g : graph) : Prop := ∃ u, tc (edge g) u u.

(** [dfs node] is entered from the node on top of the stack. *)
Definition call_ok (g : graph) (st : dfs_state) (node : Z) : Prop :=
  ∀ l u, stack st = l ++ [u] → edge g u node.


(** The invariant of the search. *)
Record dfs_inv (g : graph) (st : dfs_state) : Prop := {
  inv_seen : ∀ c, c ∈ seen_cycles st ↔ c ∈ cycles st;
  inv_nodup : NoDup (cycles st);
  inv_stack_visited : ∀ x, x ∈ stack st → x ∈ visited st;
  inv_chain : chain g (stack st);
  inv_sound : cycles st ≠ [] → has_cycle g;
  inv_cycle_nodes : ∀ c x, c ∈ cycles st → x ∈ c → graph_get g x ≠ [];
  inv_cycle_length : ∀ c, c ∈ cycles st → (2 ≤ length c)%nat;
  inv_finished : cycles st = [] → ∀ u, u ∈ visited st → u ∉ stack st →
    (∀ v, edge g u v → v ∈ visited st ∧ v ∉ stack st) ∧ ¬ tc (edge g) u u
}.

(** What a call [dfs node] leaves behind. *)
Definition dfs_post (st : dfs_state) (node : Z) (st' : dfs_state) : Prop :=
  stack st' = stack st ∧ visited st ⊆ visited st' ∧ cycles st `prefix_of` cycles st'
  ∧ node ∈ visited st' ∧ (cycles st' = [] → node ∉ stack st).

(** The number of keys of the graph not yet visited. *)
Definition unvisited (V : gset Z) (l : list Z) : nat :=
  length (filter (λ k, k ∉ V) l).



Section Vocabulary.
Context {R : PyRuntime}.

(** The loop over a task's dependencies runs: they are missing, empty, a
    list or a string. *)
Definition deps_iterable (t : task) : Prop :=
  ∃ l, py_iter (py_or (dict_get t "dependencies") (VList [])) = Ok l.

End Vocabulary.

(** What [TaskInputSerializer] lets through: the declared fields with their
    types and bounds; [id] and [dependencies] may be missing. *)
Record validated (t : task) : Prop := {
  valid_title : ∃ s, t !! "title" = Some (VStr s);
  valid_due_date : ∃ d, t !! "due_date" = Some (VDate d);
  valid_hours : ∃ h, t !! "estimated_hours" = Some (VFloat h) ∧ (0 <=? h)%float = true;
  valid_importance : ∃ i, t !! "importance" = Some (VInt i) ∧ 1 ≤ i ≤ 10;
  valid_id : t !! "id" = None ∨ ∃ n, t !! "id" = Some (VInt n);
  valid_dependencies :
    t !! "dependencies" = None ∨ ∃ l, t !! "dependencies" = Some (VList (VInt <$> l))
}.

(** The score stored in a scored item. *)
Definition score_of (x : task) : float :=
  match x !! "score" with Some (VFloat f) => f | _ => nan end.


(** A task that only carries the two fields the detector reads. *)
Definition dep_task (id : Z) (deps : list Z) : task :=
  <["id" := VInt id]> (<["dependencies" := VList (VInt <$> deps)]> ∅).


(** [m * 2 ^ e] is at least [2 ^ emin], the least positive binary64 number. *)
Definition above_least (m e : Z) : Prop := 0 < m ∧ -1074 ≤ Z.log2 m + e.

(** A number (not NaN) of sign [sx]. *)
Definition has_sign (sx : bool) (x : spec_float) : Prop :=
  match x with
  | S754_nan => False
  | S754_zero s | S754_infinity s | S754_finite s _ _ => s = sx
  end.

(** A number that is neither NaN nor negative; a zero of either sign counts. *)
Definition nonneg_number (x : spec_float) : Prop :=
  match x with
  | S754_nan => False
  | S754_zero _ => True
  | S754_infinity s | S754_finite s _ _ => s = false
  end.

(** A number greater than zero, infinity included. *)
Definition positive_number (x : spec_float) : Prop :=
  match x with
  | S754_infinity s | S754_finite s _ _ => s = false
  | _ => False
  end.

(** [a] may stand before [b]: the key of [b] is not greater. *)
Definition key_ge {A} (a b : float * A) : Prop := (b.1 <=? a.1)%float = true.

(** [round(x, 3)] of the runtime gives a number for a number. *)
Definition rounds_numbers (R : PyRuntime) : Prop :=
  ∀ x, is_nan x = false → is_nan (round3 x) = false.




(** ** Sample data *)

Definition sample_task : task :=
  <["title" := VStr "Write report"]> (<["due_date" := VStr "2025-11-28T09:00:00"]>
    (<["estimated_hours" := VInt 3]> (<["importance" := VInt 5]>
      (<["dependencies" := VList [VInt 7; VInt 7]]> ∅)))).


Definition sample_batch : list task :=
  [ <["title" := VStr "a"]> (<["due_date" := VDate (Date 739590)]>
      (<["estimated_hours" := VFloat 8]> (<["importance" := VInt 4]> ∅)));
    <["title" := VStr "b"]> (<["due_date" := VDate (Date 739580)]>
      (<["estimated_hours" := VFloat 0.5]> (<["importance" := VInt 9]>
        (<["dependencies" := VList [VInt 1]]> ∅)))) ].

(** The tasks of [tests.py], and their priority on 2025-11-30 with the
    default weights. *)
Definition test_task (due : Z) (hours : value) (importance : Z) (deps : list Z) : task :=
  <["title" := VStr "A"]> (<["due_date" := VDate (Date due)]>
    (<["estimated_hours" := hours]> (<["importance" := VInt importance]>
      (<["dependencies" := VList (VInt <$> deps)]> ∅)))).

Definition test_priority (t : task) : result float :=
  calculate_priority (R := ref_runtime) (Date 739585) t [] DEFAULT_WEIGHTS.

(** ** Proof automation *)




(** * Vocabulary of the further properties *)

(** A closed path without repeats that starts and ends at its least node,
    every entry listing the next among its dependencies. *)
Definition simple_cycle (g : graph) (c : list Z) : Prop :=
  ∃ x body, c = x :: body ++ [x] ∧ NoDup (x :: body) ∧ chain g c
            ∧ Forall (λ y, x < y) body.

(** [p] followed by its first entry: the closed path through [p], as
    [stack[idx_in_stack:] + [node]] builds it. *)
Definition closed (p : list Z) : list Z := p ++ take 1 p.

(** The stack holds no node twice, and every recorded cycle is simple. *)
Definition shape_inv (g : graph) (st : dfs_state) : Prop :=
  NoDup (stack st) ∧ Forall (simple_cycle g) (cycles st).

(** What every call leaves unchanged or only extends. *)
Definition extends (st st' : dfs_state) : Prop :=
  stack st' = stack st ∧ visited st ⊆ visited st'
  ∧ cycles st `prefix_of` cycles st' ∧ seen_cycles st ⊆ seen_cycles st'.

(** Either [k] has not been visited, or its self-loop is recorded. *)
Definition loop_state (k : Z) (st : dfs_state) : Prop :=
  k ∉ visited st ∨ [k; k] ∈ cycles st.

(** The entries whose key equals [k]. *)
Definition with_key {A} (k : float) (l : list (float * A)) : list (float * A) :=
  filter (λ y, (y.1 =? k)%float = true) l.

(** The task [t'] is [t] with, at most, an ["id"] added. *)
Definition same_but_id (t' t : task) : Prop :=
  t' = t ∨ ∃ v, t !! "id" = None ∧ t' = <["id" := v]> t.

(** An item with a score that is a number. *)
Definition scored_item (x : task) : Prop :=
  ∃ s, x !! "score" = Some (VFloat s) ∧ is_nan s = false.

(** The scores of a list of scored items, or the exception raised instead. *)
Definition scores (r : result (list task)) : result (list float) :=
  match r with Ok scored => Ok (score_of <$> scored) | Raise e => Raise e end.

(** The id that a task carries itself: a whole number other than 0. *)
Definition explicit_id (t : task) : option Z :=
  match t !! "id" with
  | Some (VInt n) => if n =? 0 then None else Some n
  | _ => None
  end.

(** The id of the task at position [i] once [assign_ids] has run: its own,
    or its position counted from 1. *)
Definition id_at (i : nat) (t : task) : value :=
  default (VInt (Z.of_nat i + 1)) (t !! "id").

(** The task carries no id that Python takes for false, such as 0. *)
Definition id_truthy (t : task) : Prop := ∀ v, t !! "id" = Some v → truthy v = true.

(** Task [u] of the batch lists [v] among its dependencies. *)
Definition depends_on (tasks : list task) (u v : Z) : Prop :=
  ∃ i t deps, tasks !! i = Some t ∧ id_at i t = VInt u
    ∧ t !! "dependencies" = Some (VList deps) ∧ VInt v ∈ deps.

(** The dependencies of the batch lead from some task back to itself. *)
Definition cyclic (tasks : list task) : Prop := ∃ u, tc (depends_on tasks) u u.

(** [n] tasks with the ids [m], [m + 1], ..., each depending on the next
    id. *)
Definition chain_from (m : Z) (n : nat) : list task :=
  (λ i, dep_task i [i + 1]) <$> seqZ m (Z.of_nat n).

Definition chain_batch (n : nat) : list task := chain_from 1 n.

(** [n] tasks with the ids 1 to [n], each depending on the next and the
    last on the first. *)
Definition ring_batch (n : nat) : list task :=
  (λ i, dep_task i [i `mod` Z.of_nat n + 1]) <$> seqZ 1 (Z.of_nat n).

(** The same chain as validated request data, the ids left to
    [assign_ids]. *)
Definition valid_chain (n : nat) : list task :=
  (λ i, test_task 739590 (VFloat 1) 5 [i + 1]) <$> seqZ 1 (Z.of_nat n).

(** Two validated tasks with the ids 0 and 5 that depend on each other. *)
Definition zero_id_batch : list task :=
  [ <["id" := VInt 0]> (test_task 739590 (VFloat 1) 5 [5]);
    <["id" := VInt 5]> (test_task 739590 (VFloat 1) 5 [0]) ].

Section Readings.
Context {R : PyRuntime}.

(** The integers that [int] makes of the entries, in order. *)
Definition dep_ids (deps_raw : list value) : list Z :=
  omap (λ d, match py_int d with Ok di => Some di | Raise _ => None end) deps_raw.

(** [y] is [x] with its explanation added. *)
Definition explained (today : date) (x y : task) : Prop :=
  explain today x = Ok y ∧ ∃ e, e ≠ "" ∧ y = <["explanation" := VStr e]> x.

End Readings.


(** * Properties of the depth-first search *)

Lemma graph_get_keys (g : graph) u : graph_get g u ≠ [] → u ∈ graph_keys g.
Proof.
  unfold graph_keys. induction g as [|[k v] g' IH]; simpl; [done|].
  case_decide as Hk; [subst; intros _; apply elem_of_cons; by left|].
  intros Hne. apply elem_of_cons. right. by apply IH.
Qed.

Lemma elem_of_drop_inv {A} (x : A) n l : x ∈ drop n l → x ∈ l.
Proof.
  intros (i & Hi)%list_elem_of_lookup. rewrite lookup_drop in Hi.
  by eapply list_elem_of_lookup_2.
Qed.

Lemma elem_of_take_inv {A} (x : A) n l : x ∈ take n l → x ∈ l.
Proof. intros (i & Hi & _)%elem_of_take. by eapply list_elem_of_lookup_2. Qed.

Lemma index_of_lt x l : x ∈ l → (index_of x l < length l)%nat.
Proof.
  induction l as [|y l IH]; simpl; [by intros ?%elem_of_nil|].
  intros [->|Hin]%elem_of_cons; case_decide; try lia.
  specialize (IH Hin). lia.
Qed.

Lemma index_of_app_fresh x l1 l2 : x ∉ l1 → index_of x (l1 ++ x :: l2) = length l1.
Proof.
  induction l1 as [|y l1 IH]; simpl; intros Hnin.
  - by case_decide.
  - apply not_elem_of_cons in Hnin as [Hne Hnin].
    case_decide; [congruence|]. by rewrite IH.
Qed.

Lemma argmin_from_lt best_i best i l :
  (best_i < i)%nat → (argmin_from best_i best i l < i + length l)%nat.
Proof.
  revert best_i best i. induction l as [|x l IH]; intros best_i best i Hlt; simpl.
  - lia.
  - case_match.
    + specialize (IH i x (S i)). lia.
    + specialize (IH best_i best (S i)). lia.
Qed.

Lemma argmin_lt l : l ≠ [] → (argmin l < length l)%nat.
Proof.
  destruct l as [|x l]; [done|]. intros _. simpl.
  pose proof (argmin_from_lt 0 x 1 l). lia.
Qed.

Lemma canonical_length c : length (canonical c) = length c.
Proof.
  unfold canonical. case_match eqn:Hlen; [|done].
  apply Nat.ltb_lt in Hlen.
  assert (take (length c - 1) c ≠ []) as Hne.
  { intros Heq%(f_equal length). rewrite length_take in Heq. simpl in Heq. lia. }
  apply argmin_lt in Hne. rewrite length_take in Hne.
  rewrite !length_app, length_drop, !length_take. simpl. lia.
Qed.

Lemma canonical_elem c x : x ∈ canonical c → x ∈ c.
Proof.
  unfold canonical. case_match eqn:Hlen; [|done].
  apply Nat.ltb_lt in Hlen.
  assert (take (length c - 1) c ≠ []) as Hne.
  { intros Heq%(f_equal length). rewrite length_take in Heq. simpl in Heq. lia. }
  apply argmin_lt in Hne. rewrite length_take in Hne.
  set (m := argmin (take (length c - 1) c)) in *.
  rewrite !elem_of_app. intros [Hin|[Hin|Hin]].
  - by eapply elem_of_take_inv, elem_of_drop_inv.
  - by eapply elem_of_take_inv.
  - apply list_elem_of_singleton in Hin as ->.
    destruct (lookup_lt_is_Some_2 c m) as [y Hy]; [lia|].
    rewrite Hy. simpl. by eapply list_elem_of_lookup_2.
Qed.

Lemma pop_snoc l x : pop (l ++ [x]) = l.
Proof.
  unfold pop. rewrite length_app. simpl.
  replace (length l + 1 - 1)%nat with (length l) by lia.
  by rewrite take_app_length.
Qed.

Lemma foldl_bind_None {A B} (f : B → A → option A) l :
  foldl (λ acc b, acc ≫= f b) None l = None.
Proof. by induction l. Qed.

Section DfsFacts.
Variable g : graph.

Lemma edge_out u v : edge g u v → graph_get g u ≠ [].
Proof. unfold edge. intros Hin Heq. rewrite Heq in Hin. by apply elem_of_nil in Hin. Qed.

Lemma chain_snoc s node :
  chain g s → (∀ l u, s = l ++ [u] → edge g u node) → chain g (s ++ [node]).
Proof.
  intros Hc Hok l1 u v l2 Heq.
  destruct l2 as [|z l2 _] using rev_ind.
  - change (l1 ++ [u; v]) with (l1 ++ [u] ++ [v]) in Heq.
    rewrite app_assoc in Heq. apply app_inj_tail in Heq as [Hs ->].
    by eapply Hok.
  - rewrite !app_comm_cons, app_assoc in Heq. apply app_inj_tail in Heq as [Hs _].
    by eapply Hc.
Qed.

Lemma chain_prefix s1 s2 : chain g (s1 ++ s2) → chain g s1.
Proof.
  intros Hc l1 u v l2 ->. eapply (Hc l1 u v (l2 ++ s2)).
  by rewrite <- !app_assoc.
Qed.

Lemma chain_reach l1 x l2 y : chain g (l1 ++ x :: l2 ++ [y]) → rtc (edge g) x y.
Proof.
  revert l1 x. induction l2 as [|z l2 IH]; intros l1 x Hc.
  - apply rtc_once. by eapply (Hc l1 x y []).
  - eapply rtc_l.
    + by eapply (Hc l1 x z (l2 ++ [y])).
    + eapply (IH (l1 ++ [x])). by rewrite <- app_assoc.
Qed.

(** A back edge closes a cycle of the graph. *)
Lemma back_edge_cycle st node :
  chain g (stack st) → call_ok g st node → node ∈ stack st → tc (edge g) node node.
Proof.
  intros Hc Hok Hin. apply list_elem_of_split in Hin as (l1 & l2 & Heq).
  destruct l2 as [|y l2 _] using rev_ind.
  - apply tc_once. by eapply (Hok l1).
  - eapply tc_rtc_l.
    + eapply (chain_reach l1 node l2 y). by rewrite <- Heq.
    + apply tc_once. eapply (Hok (l1 ++ node :: l2)).
      by rewrite Heq, <- app_assoc.
Qed.

(** Every node on the stack has an outgoing edge once [dfs] is entered
    from its top. *)
Lemma stack_out st node x :
  chain g (stack st) → call_ok g st node → x ∈ stack st → graph_get g x ≠ [].
Proof.
  intros Hc Hok Hin. apply list_elem_of_split in Hin as (l1 & l2 & Heq).
  destruct l2 as [|y l2].
  - eapply edge_out, (Hok l1). done.
  - eapply edge_out, (Hc l1 x y l2). done.
Qed.


Lemma dfs_inv_init : dfs_inv g dfs_init.
Proof.
  split; simpl.
  - intros c. split; [by intros ?%not_elem_of_empty|by intros ?%elem_of_nil].
  - apply NoDup_nil_2.
  - by intros x ?%elem_of_nil.
  - by intros [] ? ? ? ?.
  - done.
  - by intros c x ?%elem_of_nil.
  - by intros c ?%elem_of_nil.
  - by intros _ u ?%not_elem_of_empty.
Qed.

Lemma record_cycle_spec st node :
  dfs_inv g st → call_ok g st node → node ∈ stack st →
  dfs_inv g (record_cycle node st) ∧ dfs_post st node (record_cycle node st).
Proof.
  intros Hinv Hok Hin.
  pose proof (inv_stack_visited _ _ Hinv _ Hin) as Hvis.
  unfold record_cycle.
  set (cycle := drop (index_of node (stack st)) (stack st) ++ [node]).
  case_decide as Hseen.
  - split; [done|]. repeat split; try done.
    intros Hnil. apply (inv_seen _ _ Hinv) in Hseen. rewrite Hnil in Hseen.
    by apply elem_of_nil in Hseen.
  - assert (∀ x, x ∈ cycle → x ∈ stack st) as Hsub.
    { intros x [Hx|Hx]%elem_of_app.
      - by eapply elem_of_drop_inv.
      - by apply list_elem_of_singleton in Hx as ->. }
    split; [split; simpl|repeat split; simpl].
    + intros c. rewrite elem_of_union, elem_of_singleton, elem_of_app,
        list_elem_of_singleton, (inv_seen _ _ Hinv). tauto.
    + apply NoDup_app. split; [apply (inv_nodup _ _ Hinv)|]. split.
      * intros c Hc ->%list_elem_of_singleton. by apply (inv_seen _ _ Hinv) in Hc.
      * apply NoDup_singleton.
    + apply (inv_stack_visited _ _ Hinv).
    + apply (inv_chain _ _ Hinv).
    + intros _. exists node. eapply back_edge_cycle; [apply (inv_chain _ _ Hinv)|done..].
    + intros c x [Hc|Hc]%elem_of_app Hx.
      * by eapply (inv_cycle_nodes _ _ Hinv).
      * apply list_elem_of_singleton in Hc as ->.
        eapply stack_out; [apply (inv_chain _ _ Hinv)|done|].
        by apply Hsub, canonical_elem.
    + intros c [Hc|Hc]%elem_of_app.
      * by apply (inv_cycle_length _ _ Hinv).
      * apply list_elem_of_singleton in Hc as ->.
        rewrite canonical_length. unfold cycle. rewrite length_app, length_drop. simpl.
        apply index_of_lt in Hin. lia.
    + intros Hnil. by destruct (cycles st).
    + done.
    + by apply prefix_app_r.
    + done.
    + intros Hnil. by destruct (cycles st).
Qed.


Lemma prefix_nil_eq {A} (l : list A) : l `prefix_of` [] → l = [].
Proof. intros [k Hk]. symmetry in Hk. by apply app_eq_nil in Hk as [-> _]. Qed.

Lemma enter_inv st node :
  dfs_inv g st → call_ok g st node → node ∉ visited st → dfs_inv g (enter node st).
Proof.
  intros Hinv Hok Hnv. split; simpl.
  - apply (inv_seen _ _ Hinv).
  - apply (inv_nodup _ _ Hinv).
  - intros x [Hx| ->%list_elem_of_singleton]%elem_of_app.
    + apply elem_of_union_r. by apply (inv_stack_visited _ _ Hinv).
    + apply elem_of_union_l. by apply elem_of_singleton.
  - apply chain_snoc; [apply (inv_chain _ _ Hinv)|done].
  - apply (inv_sound _ _ Hinv).
  - apply (inv_cycle_nodes _ _ Hinv).
  - apply (inv_cycle_length _ _ Hinv).
  - intros Hnil u Hu Hns.
    rewrite elem_of_app, list_elem_of_singleton in Hns.
    apply elem_of_union in Hu as [Hu%elem_of_singleton|Hu]; [tauto|].
    destruct (inv_finished _ _ Hinv Hnil u Hu) as [Hsucc Hacyc]; [tauto|].
    split; [|done]. intros v Hv. destruct (Hsucc v Hv) as [Hvv Hvs].
    split; [by apply elem_of_union_r|].
    rewrite elem_of_app, list_elem_of_singleton. intros [Hv1|Hv2]; [done|].
    by subst v.
Qed.

Lemma tc_inv_l {A} (R : relation A) x z : tc R x z → ∃ y, R x y ∧ rtc R y z.
Proof.
  intros Htc. destruct Htc as [x z Hxz|x y z Hxy Hyz].
  - by exists z.
  - exists y. split; [done|]. by apply tc_rtc.
Qed.

(** A set of nodes closed under edges contains all that its members reach. *)
Lemma closed_reach (P : Z → Prop) u v :
  (∀ x y, P x → edge g x y → P y) → P u → rtc (edge g) u v → P v.
Proof. intros Hcl Hu Hr. induction Hr; eauto. Qed.

Lemma leave_spec st st2 node :
  dfs_inv g st → node ∉ stack st → dfs_inv g st2 →
  stack st2 = stack st ++ [node] →
  visited (enter node st) ⊆ visited st2 →
  cycles st `prefix_of` cycles st2 →
  (cycles st2 = [] → ∀ v, edge g node v → v ∈ visited st2 ∧ v ∉ stack st2) →
  dfs_inv g (leave st2) ∧ dfs_post st node (leave st2).
Proof.
  intros Hinv Hns Hinv2 Hstk Hvis Hpre Hsucc.
  assert (stack (leave st2) = stack st) as Hstk'.
  { simpl. by rewrite Hstk, pop_snoc. }
  assert (node ∈ visited st2) as Hnode.
  { apply Hvis. simpl. apply elem_of_union_l. by apply elem_of_singleton. }
  split; [split|repeat split]; rewrite ?Hstk'; simpl.
  - apply (inv_seen _ _ Hinv2).
  - apply (inv_nodup _ _ Hinv2).
  - intros x Hx. apply Hvis. simpl. apply elem_of_union_r.
    by apply (inv_stack_visited _ _ Hinv).
  - apply (inv_chain _ _ Hinv).
  - apply (inv_sound _ _ Hinv2).
  - apply (inv_cycle_nodes _ _ Hinv2).
  - apply (inv_cycle_length _ _ Hinv2).
  - intros Hnil u Hu Hus.
    assert (∀ x y, (x ∈ visited st2 ∧ x ∉ stack st2) → edge g x y →
                   (y ∈ visited st2 ∧ y ∉ stack st2)) as Hclosed.
    { intros x y [Hx1 Hx2] Hxy.
      by destruct (inv_finished _ _ Hinv2 Hnil x Hx1 Hx2) as [Hs _]; apply Hs. }
    assert (∀ y, y ∉ stack st2 → y ∉ stack st) as Hweak.
    { intros y Hy Hy'. apply Hy. rewrite Hstk. apply elem_of_app. by left. }
    destruct (decide (u = node)) as [->|Hne].
    + split.
      * intros v Hv. destruct (Hsucc Hnil v Hv). split; [done|]. by apply Hweak.
      * intros (y & Hy & Hr)%tc_inv_l.
        destruct (closed_reach (λ x, x ∈ visited st2 ∧ x ∉ stack st2) y node)
          as [_ Hbad]; [done|by apply Hsucc|done|].
        apply Hbad. rewrite Hstk. apply elem_of_app. right.
        by apply list_elem_of_singleton.
    + assert (u ∉ stack st2) as Hus2.
      { rewrite Hstk, elem_of_app, list_elem_of_singleton. tauto. }
      destruct (inv_finished _ _ Hinv2 Hnil u Hu Hus2) as [Hs Hacyc].
      split; [|done]. intros v Hv. destruct (Hs v Hv). split; [done|]. by apply Hweak.
  - done.
  - intros x Hx. apply Hvis. simpl. by apply elem_of_union_r.
  - done.
  - done.
  - done.
Qed.

Lemma call_ok_stack st st' node :
  stack st' = stack st → call_ok g st node → call_ok g st' node.
Proof. intros Heq Hok l u Hl. apply (Hok l). by rewrite <- Heq. Qed.

(** A loop of calls that each meet the contract of [dfs]. *)
Lemma fold_calls_spec (I : dfs_state → Prop)
    (f : Z → dfs_state → option dfs_state) (stk : list Z) :
  (∀ node st st', stack st = stk → f node st = Some st' → I st →
     call_ok g st node → I st' ∧ dfs_post st node st') →
  ∀ ns s s', stack s = stk →
    foldl (λ acc nb, acc ≫= f nb) (Some s) ns = Some s' →
    I s → (∀ v, v ∈ ns → call_ok g s v) →
    I s' ∧ stack s' = stk ∧ visited s ⊆ visited s'
    ∧ cycles s `prefix_of` cycles s'
    ∧ (∀ v, v ∈ ns → v ∈ visited s')
    ∧ (cycles s' = [] → ∀ v, v ∈ ns → v ∉ stk).
Proof.
  intros Hf ns. induction ns as [|n ns IH]; intros s s' Hstk Hfold Hinv Hok; simpl in Hfold.
  - injection Hfold as <-. split_and!; try done.
    + by intros v ?%elem_of_nil.
    + by intros _ v ?%elem_of_nil.
  - destruct (f n s) as [s1|] eqn:Hcall; simpl in Hfold;
      [|by rewrite foldl_bind_None in Hfold].
    destruct (Hf n s s1) as (Hinv1 & Hstk1 & Hvis1 & Hpre1 & Hn1 & Hnil1);
      [done|done|done|apply Hok; by left|].
    destruct (IH s1 s') as (Hinv' & Hstk' & Hvis' & Hpre' & Hall' & Hnil');
      [congruence|done|done| |].
    { intros v Hv. eapply call_ok_stack; [done|]. apply Hok. by right. }
    split; [done|]. split; [done|]. split; [by etrans|]. split; [by etrans|].
    split.
    + intros v [->|Hv]%elem_of_cons; [by apply Hvis'|by apply Hall'].
    + intros Hnil v [->|Hv]%elem_of_cons; [|by apply Hnil'].
      rewrite <- Hstk. apply Hnil1. rewrite Hnil in Hpre'. by apply prefix_nil_eq.
Qed.

(** The contract of [dfs]. *)
Lemma dfs_spec fuel : ∀ node st st',
  dfs fuel g node st = Some st' → dfs_inv g st → call_ok g st node →
  dfs_inv g st' ∧ dfs_post st node st'.
Proof.
  induction fuel as [|fuel IH]; intros node st st' Hdfs Hinv Hok; simpl in Hdfs; [done|].
  case_decide as Hstack.
  { destruct fuel; [done|]. injection Hdfs as <-. by apply record_cycle_spec. }
  case_decide as Hvisited.
  { injection Hdfs as <-. unfold dfs_post. by split_and!. }
  destruct (foldl _ _ _) as [st2|] eqn:Hfold; simpl in Hdfs; [|done].
  injection Hdfs as <-.
  destruct (fold_calls_spec (dfs_inv g) (dfs fuel g) (stack st ++ [node])
              (λ n s s' _, IH n s s') (graph_get g node) (enter node st) st2
              eq_refl Hfold)
    as (Hinv2 & Hstk2 & Hvis2 & Hpre2 & Hall2 & Hnil2).
  { by apply enter_inv. }
  { intros v Hv l u Hl. simpl in Hl. apply app_inj_tail in Hl as [_ <-]. done. }
  apply leave_spec; try done.
  intros Hnil v Hv. split; [by apply Hall2|]. rewrite Hstk2. by apply Hnil2.
Qed.

(** The loop over the keys of the graph. *)
Lemma dfs_roots_spec fuel roots st' :
  dfs_roots fuel g roots dfs_init = Some st' →
  dfs_inv g st' ∧ stack st' = [] ∧ ∀ n, n ∈ roots → n ∈ visited st'.
Proof.
  intros Hfold. unfold dfs_roots in Hfold.
  destruct (fold_calls_spec (dfs_inv g)
              (λ n st, if decide (n ∈ visited st) then Some st else dfs fuel g n st) [])
    with (ns := roots) (s := dfs_init) (s' := st')
    as (Hinv & Hstk & _ & _ & Hall & _); try done.
  - intros node st st'' Hstk Hcall Hinv Hok. case_decide as Hv.
    + injection Hcall as <-. unfold dfs_post. split_and!; try done.
      intros _. rewrite Hstk. apply not_elem_of_nil.
    + by eapply dfs_spec.
  - apply dfs_inv_init.
  - by intros v _ [] u ?.
Qed.

(** Soundness and completeness of the detector on a graph. *)
Lemma find_cycles_sound frames cs : find_cycles frames g = Ok cs → cs ≠ [] → has_cycle g.
Proof.
  unfold find_cycles. destruct (dfs_roots _ _ _ _) as [st|] eqn:Hroots; [|done].
  intros [= <-] Hne. apply dfs_roots_spec in Hroots as (Hinv & _ & _).
  by apply (inv_sound _ _ Hinv).
Qed.

Lemma find_cycles_complete frames : find_cycles frames g = Ok [] → ¬ has_cycle g.
Proof.
  unfold find_cycles. destruct (dfs_roots _ _ _ _) as [st|] eqn:Hroots; [|done].
  intros [= Hnil] [u Hu]. apply dfs_roots_spec in Hroots as (Hinv & Hstk & Hall).
  destruct (tc_inv_l _ _ _ Hu) as (y & Hy & _).
  destruct (inv_finished _ _ Hinv Hnil u) as [_ Hacyc]; [| |done].
  - by eapply Hall, graph_get_keys, edge_out.
  - rewrite Hstk. apply not_elem_of_nil.
Qed.

Lemma find_cycles_nodes frames cs c x :
  find_cycles frames g = Ok cs → c ∈ cs → x ∈ c → graph_get g x ≠ [].
Proof.
  unfold find_cycles. destruct (dfs_roots _ _ _ _) as [st|] eqn:Hroots; [|done].
  intros [= <-]. apply dfs_roots_spec in Hroots as (Hinv & _ & _).
  apply (inv_cycle_nodes _ _ Hinv).
Qed.

Lemma find_cycles_length frames cs c :
  find_cycles frames g = Ok cs → c ∈ cs → (2 ≤ length c)%nat.
Proof.
  unfold find_cycles. destruct (dfs_roots _ _ _ _) as [st|] eqn:Hroots; [|done].
  intros [= <-]. apply dfs_roots_spec in Hroots as (Hinv & _ & _).
  apply (inv_cycle_length _ _ Hinv).
Qed.

Lemma find_cycles_nodup frames cs : find_cycles frames g = Ok cs → NoDup cs.
Proof.
  unfold find_cycles. destruct (dfs_roots _ _ _ _) as [st|] eqn:Hroots; [|done].
  intros [= <-]. apply dfs_roots_spec in Hroots as (Hinv & _ & _).
  apply (inv_nodup _ _ Hinv).
Qed.

(** *** Termination: frames for two calls more than the graph has keys are
    enough *)

Lemma unvisited_le V l : (unvisited V l ≤ length l)%nat.
Proof. apply length_filter. Qed.

Lemma unvisited_mono V V' l : V ⊆ V' → (unvisited V' l ≤ unvisited V l)%nat.
Proof.
  intros Hsub. unfold unvisited. induction l as [|k l IH]; [done|].
  rewrite !filter_cons. case_decide as H1; case_decide as H2; simpl; try lia.
  exfalso. apply H1. by apply Hsub.
Qed.

Lemma unvisited_enter V l n :
  n ∈ l → n ∉ V → (unvisited ({[n]} ∪ V) l < unvisited V l)%nat.
Proof.
  intros Hin Hn. unfold unvisited. induction l as [|k l IH]; [by apply elem_of_nil in Hin|].
  assert (V ⊆ {[n]} ∪ V) as Hsub by apply union_subseteq_r.
  pose proof (unvisited_mono V ({[n]} ∪ V) l Hsub) as Hmono. unfold unvisited in Hmono.
  rewrite !filter_cons. apply elem_of_cons in Hin as [<-|Hin].
  - case_decide as H1; case_decide as H2; simpl; try lia; try done.
    exfalso. apply H1. apply elem_of_union_l. by apply elem_of_singleton.
  - specialize (IH Hin). case_decide as H1; case_decide as H2; simpl; try lia.
    exfalso. apply H1. by apply elem_of_union_r.
Qed.

Lemma record_cycle_visited node st : visited (record_cycle node st) = visited st.
Proof. unfold record_cycle. by case_decide. Qed.

Lemma dfs_enough_fuel fuel : ∀ node st,
  (S (unvisited (visited st) (graph_keys g)) < fuel)%nat →
  ∃ st', dfs fuel g node st = Some st' ∧ visited st ⊆ visited st'.
Proof.
  induction fuel as [|fuel IH]; intros node st Hfuel; [lia|]. simpl.
  case_decide as Hstack.
  { destruct fuel; [lia|]. eexists. split; [done|]. by rewrite record_cycle_visited. }
  case_decide as Hvisited.
  { by eexists. }
  assert (∀ ns s, (ns = [] ∨ (S (unvisited (visited s) (graph_keys g)) < fuel)%nat) →
            ∃ s', foldl (λ acc nb, acc ≫= dfs fuel g nb) (Some s) ns = Some s'
                  ∧ visited s ⊆ visited s') as Hloop.
  { induction ns as [|n ns IHns]; intros s Hs; simpl.
    - by eexists.
    - destruct Hs as [?|Hs]; [done|].
      destruct (IH n s Hs) as (s1 & -> & Hsub1). simpl.
      destruct (IHns s1) as (s' & -> & Hsub').
      + right. pose proof (unvisited_mono _ _ (graph_keys g) Hsub1). lia.
      + eexists. split; [done|]. by etrans. }
  destruct (Hloop (graph_get g node) (enter node st)) as (st2 & -> & Hsub).
  - destruct (graph_get g node) as [|v ns] eqn:Hget; [by left|right].
    assert (node ∈ graph_keys g) as Hkey by (apply graph_get_keys; by rewrite Hget).
    pose proof (unvisited_enter (visited st) _ node Hkey Hvisited). simpl. lia.
  - simpl. eexists. split; [done|]. simpl. etrans; [|done]. simpl.
    apply union_subseteq_r.
Qed.

Lemma dfs_roots_total frames roots st :
  (length g + 2 ≤ frames)%nat → ∃ st', dfs_roots frames g roots st = Some st'.
Proof.
  intros Hfuel. unfold dfs_roots. rename frames into fuel.
  revert st. induction roots as [|n roots IH]; intros st; simpl.
  - by eexists.
  - case_decide; [apply IH|].
    destruct (dfs_enough_fuel fuel n st) as (st' & -> & _); [|apply IH].
    pose proof (unvisited_le (visited st) (graph_keys g)) as Hle.
    unfold graph_keys in Hle at 2. rewrite length_fmap in Hle. lia.
Qed.

(** The search returns when that many frames are left. *)
Lemma find_cycles_total frames :
  (length g + 2 ≤ frames)%nat → ∃ cs, find_cycles frames g = Ok cs.
Proof.
  intros Hfuel. unfold find_cycles.
  destruct (dfs_roots_total frames (graph_keys g) dfs_init Hfuel) as [st ->].
  by eexists.
Qed.

End DfsFacts.

(** *** A three-node ring whose nodes have no other dependency *)

Section Ring.
Variable g : graph.
Hypothesis ring_1 : graph_get g 1 = [2].
Hypothesis ring_2 : graph_get g 2 = [3].
Hypothesis ring_3 : graph_get g 3 = [1].






End Ring.

(** * Canonical rotation *)

Lemma chain_cons2 g u v l : chain g (u :: v :: l) ↔ edge g u v ∧ chain g (v :: l).
Proof.
  split.
  - intros Hc. split; [by apply (Hc [] u v l)|].
    intros l1 a b l2 Heq. apply (Hc (u :: l1) a b l2). by rewrite Heq.
  - intros [He Hc] l1 a b l2 Heq. destruct l1 as [|x l1]; simpl in Heq.
    + by injection Heq as <- <- _.
    + injection Heq as _ Heq. by apply (Hc l1 a b l2).
Qed.

Lemma chain_suffix g l1 l2 : chain g (l1 ++ l2) → chain g l2.
Proof.
  intros Hc l1' u v l2' ->. apply (Hc (l1 ++ l1') u v l2'). by rewrite <- app_assoc.
Qed.

Lemma chain_join g l1 z l2 :
  chain g (l1 ++ [z]) → chain g (z :: l2) → chain g (l1 ++ z :: l2).
Proof.
  intros H1 H2. induction l1 as [|x l1 IH]; simpl in *; [done|].
  destruct l1 as [|y l1]; simpl in *.
  - apply chain_cons2. split; [|done]. by apply (H1 [] x z []).
  - apply chain_cons2 in H1 as [He H1]. apply chain_cons2. split; [done|]. by apply IH.
Qed.

(** [argmin_from] returns the index of a least entry. *)
Lemma argmin_from_spec l : ∀ pre best_i best,
  pre !! best_i = Some best → (∀ y, y ∈ pre → best ≤ y) →
  ∃ m, (pre ++ l) !! argmin_from best_i best (length pre) l = Some m
       ∧ ∀ y, y ∈ pre ++ l → m ≤ y.
Proof.
  induction l as [|x l IH]; intros pre best_i best Hb Hmin; simpl.
  - exists best. rewrite app_nil_r. by split.
  - replace (pre ++ x :: l) with ((pre ++ [x]) ++ l) by (by rewrite <- app_assoc).
    replace (S (length pre)) with (length (pre ++ [x]))
      by (rewrite length_app; simpl; lia).
    destruct (Z.ltb_spec x best) as [Hlt|Hge].
    + apply (IH (pre ++ [x]) (length pre) x).
      * rewrite lookup_app_r by lia. by replace (_ - _)%nat with 0%nat by lia.
      * intros y [Hy| ->%list_elem_of_singleton]%elem_of_app; [|lia].
        specialize (Hmin y Hy). lia.
    + apply IH.
      * by apply lookup_app_l_Some.
      * intros y [Hy| ->%list_elem_of_singleton]%elem_of_app; [by apply Hmin|done].
Qed.

Lemma argmin_spec l :
  l ≠ [] → ∃ m, l !! argmin l = Some m ∧ ∀ y, y ∈ l → m ≤ y.
Proof.
  destruct l as [|x l]; [done|]. intros _. simpl.
  apply (argmin_from_spec l [x] 0%nat x); [done|].
  by intros y ->%list_elem_of_singleton.
Qed.

(** The canonical form of the closed path through [a ++ m :: b], where [m]
    is the least entry: the rotation that starts at [m]. *)
Lemma canonical_closed a m b :
  NoDup (a ++ m :: b) → (∀ y, y ∈ a ++ m :: b → m ≤ y) →
  canonical (closed (a ++ m :: b)) = m :: b ++ a ++ [m].
Proof.
  intros Hnd Hmin. set (p := a ++ m :: b).
  assert (p ≠ []) as Hne by (by destruct a).
  assert (∃ x, take 1 p = [x]) as [x Hx] by (unfold p; destruct a; by eexists).
  unfold canonical, closed. rewrite Hx.
  assert (length (p ++ [x]) - 1 = length p)%nat as Hlen
    by (rewrite length_app; simpl; lia).
  rewrite Hlen. rewrite take_app_length.
  assert ((1 <? length (p ++ [x]))%nat = true) as ->.
  { apply Nat.ltb_lt. rewrite length_app. simpl. destruct p; simpl; [done|lia]. }
  destruct (argmin_spec p Hne) as (m' & Hm' & Hmin').
  assert (m' = m) as ->.
  { assert (m ≤ m') by (apply Hmin; by eapply list_elem_of_lookup_2).
    assert (m' ≤ m) by (apply Hmin'; unfold p; rewrite elem_of_app, elem_of_cons; tauto).
    lia. }
  assert (argmin p = length a) as ->.
  { eapply NoDup_lookup; [exact Hnd|exact Hm'|].
    unfold p. by rewrite list_lookup_middle. }
  assert (length a < length p)%nat as Hlt
    by (unfold p; rewrite length_app; simpl; lia).
  rewrite take_app_le by lia. rewrite lookup_app_l by done.
  unfold p. rewrite list_lookup_middle by done. simpl.
  by rewrite drop_app_length, take_app_length.
Qed.

(** A non-empty list of integers has a least entry. *)
Lemma least_entry (p : list Z) :
  p ≠ [] → ∃ a m b, p = a ++ m :: b ∧ ∀ y, y ∈ p → m ≤ y.
Proof.
  intros Hne. destruct (argmin_spec p Hne) as (m & Hm & Hmin).
  apply list_elem_of_lookup_2, list_elem_of_split in Hm as (a & b & ->).
  by exists a, m, b.
Qed.

Lemma canonical_closed_simple g p :
  p ≠ [] → NoDup p → chain g (closed p) → simple_cycle g (canonical (closed p)).
Proof.
  intros Hne Hnd Hc. destruct (least_entry p Hne) as (a & m & b & -> & Hmin).
  rewrite canonical_closed by done.
  exists m, (b ++ a). split; [by rewrite <- app_assoc|].
  assert (m :: b ++ a ≡ₚ a ++ m :: b) as Hperm.
  { by rewrite <- Permutation_middle, (Permutation_app_comm b a). }
  split; [by rewrite Hperm|]. split.
  - unfold closed in Hc. destruct a as [|x a]; simpl in *.
    + done.
    + rewrite ?take_0 in Hc.
      replace (m :: b ++ x :: a ++ [m]) with ((m :: b) ++ x :: a ++ [m]) by done.
      apply chain_join.
      * apply (chain_suffix g (x :: a)). simpl. by rewrite <- app_assoc in Hc.
      * apply (chain_prefix g _ (b ++ [x])).
        simpl. rewrite <- !app_assoc. simpl. by rewrite <- app_assoc in Hc.
  - apply Forall_forall. intros y Hy.
    assert (y ∈ a ++ m :: b) as Hin.
    { rewrite <- Hperm. by right. }
    specialize (Hmin y Hin). assert (y ≠ m); [|lia].
    intros ->. rewrite <- Hperm in Hnd. by apply NoDup_cons in Hnd as [? _].
Qed.

(** * Reported cycles are simple closed paths *)

Section CycleShape.
Variable g : graph.

Lemma record_cycle_shape st node :
  dfs_inv g st → call_ok g st node → node ∈ stack st → shape_inv g st →
  shape_inv g (record_cycle node st).
Proof.
  intros Hinv Hok Hin [Hnd Hall]. unfold record_cycle, shape_inv.
  case_decide as Hseen; simpl; [done|]. split; [done|].
  apply Forall_app. split; [done|]. apply Forall_singleton.
  apply list_elem_of_split in Hin as (l1 & l2 & Heq).
  assert (node ∉ l1) as Hfresh.
  { rewrite Heq in Hnd. apply NoDup_app in Hnd as (_ & Hnd & _).
    intros Hl1. apply (Hnd node Hl1). by left. }
  rewrite Heq, index_of_app_fresh, drop_app_length by done.
  change ((node :: l2) ++ [node]) with (closed (node :: l2)).
  apply canonical_closed_simple; [done| |].
  - rewrite Heq in Hnd. by apply NoDup_app in Hnd as (_ & _ & Hnd).
  - unfold closed. simpl. rewrite take_0. change (chain g ((node :: l2) ++ [node])).
    apply chain_snoc.
    + apply (chain_suffix g l1). rewrite <- Heq. apply (inv_chain _ _ Hinv).
    + intros l u Hl. apply (Hok (l1 ++ l)). by rewrite Heq, Hl, app_assoc.
Qed.

Lemma dfs_shape fuel : ∀ node st st',
  dfs fuel g node st = Some st' → dfs_inv g st → call_ok g st node → shape_inv g st →
  shape_inv g st'.
Proof.
  induction fuel as [|fuel IH]; intros node st st' Hdfs Hinv Hok Hshape;
    simpl in Hdfs; [done|].
  case_decide as Hstack.
  { destruct fuel; [done|]. injection Hdfs as <-. by apply record_cycle_shape. }
  case_decide as Hvisited; [by injection Hdfs as <-|].
  destruct (foldl _ _ _) as [st2|] eqn:Hfold; simpl in Hdfs; [|done].
  injection Hdfs as <-.
  destruct (fold_calls_spec g (λ s, dfs_inv g s ∧ shape_inv g s) (dfs fuel g)
              (stack st ++ [node]))
    with (ns := graph_get g node) (s := enter node st) (s' := st2)
    as ([_ [_ Hall2]] & Hstk2 & _); try done.
  - intros n s s' _ Hcall [Hi Hs] Hcok.
    destruct (dfs_spec g fuel n s s' Hcall Hi Hcok) as [Hi' Hpost].
    split; [|done]. split; [done|]. by eapply IH.
  - destruct Hshape as [Hnd Hall]. split; [by apply enter_inv|]. split; [|done].
    simpl. apply NoDup_app. split_and!; [done| |apply NoDup_singleton].
    by intros x Hx ->%list_elem_of_singleton.
  - intros v Hv l u Hl. simpl in Hl. by apply app_inj_tail in Hl as [_ <-].
  - destruct Hshape as [Hnd _]. split; [|done]. simpl. by rewrite Hstk2, pop_snoc.
Qed.

Lemma find_cycles_simple frames cs c :
  find_cycles frames g = Ok cs → c ∈ cs → simple_cycle g c.
Proof.
  unfold find_cycles. destruct (dfs_roots _ _ _ _) as [st|] eqn:Hroots; [|done].
  intros [= <-]. unfold dfs_roots in Hroots.
  destruct (fold_calls_spec g (λ s, dfs_inv g s ∧ shape_inv g s)
              (λ n st, if decide (n ∈ visited st) then Some st
                       else dfs frames g n st) [])
    with (ns := graph_keys g) (s := dfs_init) (s' := st)
    as ([_ [_ Hall]] & _); try done.
  - intros node s s' Hstk Hcall [Hi Hs] Hcok. case_decide as Hv.
    + injection Hcall as <-. unfold dfs_post. split_and!; try done.
      intros _. rewrite Hstk. apply not_elem_of_nil.
    + destruct (dfs_spec g _ node s s' Hcall Hi Hcok) as [Hi' Hpost].
      split; [|done]. split; [done|]. by eapply dfs_shape.
  - split; [apply dfs_inv_init|]. split; [apply NoDup_nil_2|apply Forall_nil_2].
  - by intros v _ [] u ?.
  - by apply Forall_forall.
Qed.

End CycleShape.

(** * The search keeps its stack *)

Lemma record_cycle_stack node st : stack (record_cycle node st) = stack st.
Proof. unfold record_cycle. by case_decide. Qed.

Lemma record_cycle_cycles node st : cycles st `prefix_of` cycles (record_cycle node st).
Proof. unfold record_cycle. case_decide; simpl; [done|]. by apply prefix_app_r. Qed.

Lemma record_cycle_seen node st :
  seen_cycles st ⊆ seen_cycles (record_cycle node st).
Proof. unfold record_cycle. case_decide; simpl; [done|]. apply union_subseteq_r. Qed.

Lemma extends_refl st : extends st st.
Proof. by unfold extends. Qed.

Lemma extends_trans st1 st2 st3 : extends st1 st2 → extends st2 st3 → extends st1 st3.
Proof.
  intros (? & ? & ? & ?) (? & ? & ? & ?). unfold extends.
  split_and!; [congruence|by etrans..].
Qed.

Lemma fold_extends (f : Z → dfs_state → option dfs_state) ns :
  (∀ n s s', n ∈ ns → f n s = Some s' → extends s s') →
  ∀ s s', foldl (λ acc nb, acc ≫= f nb) (Some s) ns = Some s' → extends s s'.
Proof.
  induction ns as [|n ns IH]; intros Hf s s' Hfold; simpl in Hfold.
  - injection Hfold as <-. apply extends_refl.
  - destruct (f n s) as [s1|] eqn:Hcall; simpl in Hfold;
      [|by rewrite foldl_bind_None in Hfold].
    eapply extends_trans; [eapply Hf; [by left|done]|].
    apply IH; [|done]. intros n' ? ? Hn'. apply Hf. by right.
Qed.

Lemma dfs_extends fuel g : ∀ node st st',
  dfs fuel g node st = Some st' → extends st st'.
Proof.
  induction fuel as [|fuel IH]; intros node st st' Hdfs; simpl in Hdfs; [done|].
  case_decide as Hstack.
  { destruct fuel; [done|]. injection Hdfs as <-. unfold extends.
    rewrite record_cycle_stack, record_cycle_visited. split_and!; try done.
    - apply record_cycle_cycles.
    - apply record_cycle_seen. }
  case_decide as Hvisited; [injection Hdfs as <-; apply extends_refl|].
  destruct (foldl _ _ _) as [st2|] eqn:Hfold; simpl in Hdfs; [|done].
  injection Hdfs as <-.
  apply fold_extends in Hfold as (Hstk & Hvis & Hcyc & Hseen); [|by intros; eapply IH].
  simpl in *. unfold extends. simpl. rewrite Hstk, pop_snoc.
  split_and!; try done. set_solver.
Qed.

(** * Self-dependencies *)

Lemma fold_calls_split (f : Z → dfs_state → option dfs_state) l1 x l2 s s' :
  foldl (λ acc nb, acc ≫= f nb) (Some s) (l1 ++ x :: l2) = Some s' →
  ∃ s1 s2, foldl (λ acc nb, acc ≫= f nb) (Some s) l1 = Some s1
    ∧ f x s1 = Some s2
    ∧ foldl (λ acc nb, acc ≫= f nb) (Some s2) l2 = Some s'.
Proof.
  rewrite foldl_app. simpl.
  destruct (foldl _ (Some s) l1) as [s1|]; simpl; [|by rewrite foldl_bind_None].
  destruct (f x s1) as [s2|] eqn:Hx; simpl; [|by rewrite foldl_bind_None].
  intros Hrest. by exists s1, s2.
Qed.

Section SelfLoop.
Variable g : graph.
Variable k : Z.
Hypothesis self_edge : edge g k k.

Lemma loop_state_found st st' :
  cycles st `prefix_of` cycles st' → [k; k] ∈ cycles st → loop_state k st'.
Proof. intros [l Hl] Hin. right. rewrite Hl. apply elem_of_app. by left. Qed.

(** Entering [k] records its self-loop. *)
Lemma dfs_self_loop fuel st st' :
  dfs_inv g st → call_ok g st k → k ∉ visited st →
  dfs fuel g k st = Some st' → [k; k] ∈ cycles st'.
Proof.
  intros Hinv Hok Hvis Hdfs. destruct fuel as [|fuel]; simpl in Hdfs; [done|].
  assert (k ∉ stack st) as Hstk.
  { intros Hs. by apply Hvis, (inv_stack_visited _ _ Hinv). }
  rewrite decide_False in Hdfs by done. rewrite decide_False in Hdfs by done.
  destruct (foldl _ _ _) as [st2|] eqn:Hfold; simpl in Hdfs; [|done].
  injection Hdfs as <-. simpl.
  pose proof self_edge as Hedge. unfold edge in Hedge.
  apply list_elem_of_split in Hedge as (l1 & l2 & Hsplit). rewrite Hsplit in Hfold.
  apply fold_calls_split in Hfold as (s1 & s2 & Hl1 & Hcall & Hl2).
  destruct (fold_calls_spec g (dfs_inv g) (dfs fuel g) (stack st ++ [k])
              (λ n s s' _, dfs_spec g fuel n s s') l1 (enter k st) s1 eq_refl Hl1)
    as (Hinv1 & Hstk1 & _).
  { by apply enter_inv. }
  { intros v Hv l u Hl. simpl in Hl. apply app_inj_tail in Hl as [_ <-].
    unfold edge. rewrite Hsplit, elem_of_app. by left. }
  assert (extends s2 st2) as (_ & _ & Hpre & _).
  { eapply fold_extends; [|exact Hl2]. intros n s s' _ Hc. by eapply dfs_extends. }
  eapply elem_of_prefix; [|done].
  destruct fuel as [|fuel]; simpl in Hcall; [done|].
  rewrite decide_True in Hcall by (rewrite Hstk1, elem_of_app, list_elem_of_singleton; tauto).
  destruct fuel as [|fuel]; [done|]. injection Hcall as <-. unfold record_cycle.
  rewrite Hstk1, index_of_app_fresh, drop_app_length by done.
  change (canonical ([k] ++ [k])) with [k; k].
  case_decide as Hseen; simpl.
  - by apply (inv_seen _ _ Hinv1).
  - apply elem_of_app. right. by apply list_elem_of_singleton.
Qed.

Lemma dfs_loop_spec fuel : ∀ node st st',
  dfs fuel g node st = Some st' →
  dfs_inv g st ∧ loop_state k st → call_ok g st node →
  (dfs_inv g st' ∧ loop_state k st') ∧ dfs_post st node st'.
Proof.
  induction fuel as [|fuel IH]; intros node st st' Hdfs [Hinv Hloop] Hok; [done|].
  destruct (dfs_spec g _ _ _ _ Hdfs Hinv Hok) as [Hinv' Hpost].
  split; [split; [done|]|done].
  destruct Hloop as [Hvis|Hfound]; [|eapply loop_state_found; [apply Hpost|done]].
  destruct (decide (node = k)) as [->|Hne].
  { right. apply (dfs_self_loop (S fuel) st st' Hinv Hok Hvis Hdfs). }
  simpl in Hdfs. case_decide as Hstack.
  { destruct fuel; [done|]. injection Hdfs as <-. left. by rewrite record_cycle_visited. }
  case_decide as Hvisited.
  { injection Hdfs as <-. by left. }
  destruct (foldl _ _ _) as [st2|] eqn:Hfold; simpl in Hdfs; [|done].
  injection Hdfs as <-.
  destruct (fold_calls_spec g (λ s, dfs_inv g s ∧ loop_state k s) (dfs fuel g)
              (stack st ++ [node]) (λ n s s' _, IH n s s')
              (graph_get g node) (enter node st) st2 eq_refl Hfold)
    as ((_ & Hloop2) & _).
  { split; [by apply enter_inv|]. left. simpl.
    rewrite elem_of_union, elem_of_singleton. by intros [?|?]. }
  { intros v Hv l u Hl. simpl in Hl. by apply app_inj_tail in Hl as [_ <-]. }
  done.
Qed.

Lemma find_cycles_self_loop frames cs : find_cycles frames g = Ok cs → [k; k] ∈ cs.
Proof.
  unfold find_cycles. destruct (dfs_roots _ _ _ _) as [st|] eqn:Hroots; [|done].
  intros [= <-]. unfold dfs_roots in Hroots.
  destruct (fold_calls_spec g (λ s, dfs_inv g s ∧ loop_state k s)
              (λ n st, if decide (n ∈ visited st) then Some st
                       else dfs frames g n st) [])
    with (ns := graph_keys g) (s := dfs_init) (s' := st)
    as ((_ & Hloop) & _ & _ & _ & Hall & _); try done.
  - intros node s s' Hstk Hcall [Hinv Hloop] Hok. case_decide as Hv.
    + injection Hcall as <-. unfold dfs_post. split_and!; try done.
      intros _. rewrite Hstk. apply not_elem_of_nil.
    + by eapply dfs_loop_spec.
  - split; [apply dfs_inv_init|]. left. simpl. apply not_elem_of_empty.
  - by intros v _ [] u ?.
  - destruct Hloop as [Hvis|Hfound]; [|done].
    exfalso. by eapply Hvis, Hall, graph_get_keys, edge_out.
Qed.

End SelfLoop.

(** *** The ring is the only cycle through its nodes *)

Section RingOnly.
Variable g : graph.
Hypothesis ring_1 : graph_get g 1 = [2].
Hypothesis ring_2 : graph_get g 2 = [3].
Hypothesis ring_3 : graph_get g 3 = [1].




End RingOnly.

(** * Order of binary64 numbers *)

Lemma SFcompare_swap x y :
  SFcompare y x = CompOpp <$> SFcompare x y.
Proof.
  destruct x as [[]|[]| |[] m1 e1], y as [[]|[]| |[] m2 e2]; simpl; try done.
  all: rewrite (Z.compare_antisym e1 e2); destruct (e1 ?= e2); simpl; try done.
  all: by rewrite (Pos.compare_cont_antisym m1 m2 Eq); simpl; rewrite ?CompOpp_involutive.
Qed.

Lemma SFleb_total x y :
  SFcompare x x = Some Eq → SFcompare y y = Some Eq →
  SFltb x y = false → SFleb y x = true.
Proof.
  unfold SFltb, SFleb. rewrite (SFcompare_swap x y).
  destruct x as [[]|[]| |[] m1 e1], y as [[]|[]| |[] m2 e2]; simpl; try done.
  all: by destruct (e1 ?= e2); simpl; try done; destruct (Pos.compare_cont Eq m1 m2).
Qed.

Lemma SFleb_trans x y z : SFleb x y = true → SFleb y z = true → SFleb x z = true.
Proof.
  unfold SFleb.
  destruct x as [[]|[]| |[] m1 e1], y as [[]|[]| |[] m2 e2], z as [[]|[]| |[] m3 e3];
    simpl; try done.
  all: change (Pos.compare_cont Eq) with Pos.compare.
  all: destruct (Z.compare_spec e1 e2), (Z.compare_spec e2 e3), (Z.compare_spec e1 e3);
    simpl; try done; try lia; subst.
  all: destruct (Pos.compare_spec m1 m2), (Pos.compare_spec m2 m3),
         (Pos.compare_spec m1 m3); simpl; try done; lia.
Qed.

Lemma is_nan_spec x : is_nan x = false → SFcompare (Prim2SF x) (Prim2SF x) = Some Eq.
Proof.
  unfold is_nan. rewrite FloatAxioms.eqb_spec. unfold SFeqb.
  destruct (SFcompare _ _) as [[]|]; simpl; done.
Qed.

(** Among numbers that are not NaN, [<] and [<=] are complementary. *)
Lemma float_leb_total x y :
  is_nan x = false → is_nan y = false → (x <? y)%float = false → (y <=? x)%float = true.
Proof.
  intros Hx%is_nan_spec Hy%is_nan_spec. rewrite FloatAxioms.ltb_spec, FloatAxioms.leb_spec.
  by apply SFleb_total.
Qed.

Lemma float_leb_trans x y z :
  (x <=? y)%float = true → (y <=? z)%float = true → (x <=? z)%float = true.
Proof. rewrite !FloatAxioms.leb_spec. apply SFleb_trans. Qed.

Lemma float_ltb_leb x y : (x <? y)%float = true → (x <=? y)%float = true.
Proof.
  rewrite FloatAxioms.ltb_spec, FloatAxioms.leb_spec. unfold SFltb, SFleb. by destruct (SFcompare _ _) as [[]|].
Qed.



(** * Rounding never loses a number that is at least the least subnormal *)

Lemma iter_pos_iter {A} (f : A → A) n x : SpecFloat.iter_pos f n x = Pos.iter f x n.
Proof.
  revert x. induction n as [n IH|n IH|]; intros x; simpl; [|by rewrite !IH|done].
  by rewrite !IH, <- !Pos.iter_swap.
Qed.

Lemma shr_1_m r : Z.max 0 (shr_m (shr_1 r)) = Z.div2 (Z.max 0 (shr_m r)).
Proof. by destruct r as [[|[p|p|]|[p|p|]] ? ?]. Qed.

Lemma shr_m_iter r n :
  0 ≤ shr_m r → Z.max 0 (shr_m (SpecFloat.iter_pos shr_1 n r)) = Z.shiftr (shr_m r) (Zpos n).
Proof.
  intros Hr. rewrite iter_pos_iter.
  rewrite (Pos.iter_swap_gen _ _ (λ r, Z.max 0 (shr_m r)) shr_1 Z.div2 shr_1_m).
  by rewrite Z.max_r.
Qed.


Lemma shr_fexp_above m e l :
  above_least m e →
  let '(r, e') := shr_fexp prec emax m e l in above_least (shr_m r) e'.
Proof.
  intros [Hm He]. unfold shr_fexp, shr.
  assert (Zdigits2 m = Z.log2 m + 1) as Hd.
  { destruct m as [|p|p]; [lia| |lia]. simpl.
    clear. induction p as [p IH|p IH|]; simpl; [| |done].
    - rewrite Pos2Z.inj_succ, IH. destruct p; simpl; lia.
    - rewrite Pos2Z.inj_succ, IH. destruct p; simpl; lia. }
  rewrite Hd. unfold fexp, SpecFloat.emin, prec, emax.
  assert (shr_m (shr_record_of_loc m l) = m) as Hrec by (by destruct l as [|[]]).
  destruct (_ - e) as [|n|n] eqn:Hn; rewrite ?Hrec; [done| |done].
  pose proof (shr_m_iter (shr_record_of_loc m l) n) as Hs. rewrite Hrec in Hs.
  specialize (Hs ltac:(lia)).
  assert (Zpos n ≤ Z.log2 m) as Hle by lia.
  assert (0 < Z.shiftr m (Zpos n)) as Hpos.
  { rewrite Z.shiftr_div_pow2 by lia. apply Z.div_str_pos. split; [lia|].
    etrans; [apply Z.pow_le_mono_r; [lia|apply Hle]|]. apply Z.log2_spec. lia. }
  assert (shr_m (SpecFloat.iter_pos shr_1 n (shr_record_of_loc m l)) = Z.shiftr m (Zpos n)) as ->
    by lia.
  split; [done|]. rewrite Z.log2_shiftr by lia. lia.
Qed.

Lemma round_nearest_even_above m e l :
  above_least m e → above_least (round_nearest_even m l) e.
Proof.
  intros [Hm He]. unfold round_nearest_even.
  assert (above_least (m + 1) e) as Hsucc.
  { split; [lia|]. pose proof (Z.log2_le_mono m (m + 1)). lia. }
  destruct l as [|[]]; try done. by destruct (Z.even m).
Qed.

Lemma binary_round_aux_above sx m e l :
  above_least m e →
  match binary_round_aux prec emax sx m e l with
  | S754_finite s _ _ | S754_infinity s => s = sx
  | _ => False
  end.
Proof.
  intros Habove. unfold binary_round_aux.
  pose proof (shr_fexp_above m e l Habove) as H1.
  destruct (shr_fexp prec emax m e l) as [r1 e1].
  pose proof (round_nearest_even_above _ _ (loc_of_shr_record r1) H1) as H2.
  pose proof (shr_fexp_above _ _ loc_Exact H2) as H3.
  destruct (shr_fexp prec emax _ e1 loc_Exact) as [r2 e2].
  destruct H3 as [Hpos _]. destruct (shr_m r2); [lia| |lia].
  by destruct (e2 <=? emax - prec).
Qed.

Lemma shl_align_value m e e' :
  let '(m', e'') := shl_align m e e' in
  Z.log2 (Zpos m') + e'' = Z.log2 (Zpos m) + e.
Proof.
  unfold shl_align. destruct (e' - e) as [|d|d] eqn:Hd; [done|done|].
  rewrite (Pos.iter_swap_gen _ _ Zpos xO (Z.mul 2)) by done.
  change (Pos.iter (Z.mul 2) (Zpos m) d) with (Z.shiftl (Zpos m) (Zpos d)).
  rewrite Z.log2_shiftl by lia. lia.
Qed.

Lemma binary_round_above sx m e :
  -1074 ≤ Z.log2 (Zpos m) + e →
  match binary_round prec emax sx m e with
  | S754_finite s _ _ | S754_infinity s => s = sx
  | _ => False
  end.
Proof.
  intros He. unfold binary_round.
  pose proof (shl_align_value m e (fexp prec emax (Zpos (digits2_pos m) + e))) as Hv.
  destruct (shl_align _ _ _) as [m' e'].
  apply binary_round_aux_above. split; [lia|]. lia.
Qed.

(** Adding one to a number that is not negative gives a positive number. *)
Lemma add_one_positive h :
  (0 <=? h)%float = true → positive_number (Prim2SF (h + 1)).
Proof.
  rewrite FloatAxioms.leb_spec, add_spec.
  change (Prim2SF 0) with (S754_zero false).
  change (Prim2SF 1) with (S754_finite false 4503599627370496 (-52)).
  destruct (Prim2SF h) as [s|[]| |[] m e]; try done.
  intros _. unfold SF64add, SFadd. cbv zeta.
  set (ez := Z.min e (-52)).
  pose proof (shl_align_value m e ez) as Ha.
  pose proof (shl_align_value 4503599627370496 (-52) ez) as Hb.
  destruct (shl_align m e ez) as [a ea], (shl_align 4503599627370496 (-52) ez) as [b eb]
    eqn:Hshl.
  assert (eb = ez) as ->.
  { unfold shl_align in Hshl. destruct (ez - -52) eqn:?; injection Hshl as _ <-; lia. }
  change (Z.log2 4503599627370496) with 52 in Hb.
  simpl fst. simpl cond_Zopp. change (Zpos a + Zpos b) with (Zpos (a + b)).
  unfold binary_normalize.
  pose proof (binary_round_above false (a + b) ez) as Hr.
  pose proof (Z.log2_le_mono (Zpos b) (Zpos (a + b))).
  destruct (binary_round prec emax false (a + b) ez) as [?|[]| |[] ? ?];
    simpl; try done; first [apply Hr; lia|exfalso; apply Hr; lia].
Qed.

(** So the division in [calculate_effort_score] is defined for such hours. *)
Lemma float_add_one_nonzero h :
  (0 <=? h)%float = true → (h + 1 =? 0)%float = false.
Proof.
  intros Hh%add_one_positive. rewrite FloatAxioms.eqb_spec.
  change (Prim2SF 0) with (S754_zero false).
  by destruct (Prim2SF (h + 1)) as [?|[]| |[] ? ?].
Qed.

(** * Arithmetic on numbers that are not negative never gives NaN *)

Lemma shr_1_nonneg r : 0 ≤ shr_m r → 0 ≤ shr_m (shr_1 r).
Proof. destruct r as [[|[p|p|]|p] ? ?]; simpl; lia. Qed.

Lemma shr_fexp_nonneg m e l : 0 ≤ m → 0 ≤ shr_m (shr_fexp prec emax m e l).1.
Proof.
  intros Hm. unfold shr_fexp, shr.
  assert (0 ≤ shr_m (shr_record_of_loc m l)) as Hrec by (by destruct l as [|[]]).
  destruct (_ - e) as [|n|n]; simpl; try done.
  rewrite iter_pos_iter. by apply Pos.iter_invariant; [apply shr_1_nonneg|].
Qed.

Lemma binary_round_aux_sign sx m e l :
  0 ≤ m → has_sign sx (binary_round_aux prec emax sx m e l).
Proof.
  intros Hm. unfold binary_round_aux.
  pose proof (shr_fexp_nonneg m e l Hm) as H1.
  destruct (shr_fexp prec emax m e l) as [r1 e1]. simpl in H1.
  assert (0 ≤ round_nearest_even (shr_m r1) (loc_of_shr_record r1)) as H2.
  { unfold round_nearest_even. destruct (loc_of_shr_record r1) as [|[]]; try lia.
    destruct (Z.even _); lia. }
  pose proof (shr_fexp_nonneg _ e1 loc_Exact H2) as H3.
  destruct (shr_fexp prec emax _ e1 loc_Exact) as [r2 e2]. simpl in H3.
  destruct (shr_m r2); [done| |lia]. by destruct (e2 <=? emax - prec).
Qed.

Lemma binary_round_sign sx m e : has_sign sx (binary_round prec emax sx m e).
Proof.
  unfold binary_round. destruct (shl_align _ _ _) as [m' e'].
  by apply binary_round_aux_sign.
Qed.

Lemma has_sign_nonneg x : has_sign false x → nonneg_number x.
Proof. by destruct x. Qed.

Lemma positive_nonneg x : positive_number x → nonneg_number x.
Proof. by destruct x. Qed.

Lemma SFadd_nonneg x y :
  nonneg_number x → nonneg_number y → nonneg_number (SF64add x y).
Proof.
  destruct x as [[]|[]| |[] m1 e1], y as [[]|[]| |[] m2 e2]; simpl; try done.
  intros _ _. apply has_sign_nonneg, binary_round_sign.
Qed.

Lemma SFmul_nonneg m e y :
  nonneg_number y → nonneg_number (SF64mul (S754_finite false m e) y).
Proof.
  destruct y as [[]|[]| |[] m2 e2]; simpl; try done.
  intros _. by apply has_sign_nonneg, binary_round_aux_sign.
Qed.

Lemma SFdiv_nonneg m e y :
  positive_number y → nonneg_number (SF64div (S754_finite false m e) y).
Proof.
  destruct y as [[]|[]| |[] m2 e2]; simpl; try done.
  intros _. unfold SFdiv_core_binary.
  set (m' := match _ - _ with Z0 => Zpos m | Zpos _ => _ | Zneg _ => 0 end).
  assert (0 ≤ m') as Hm'.
  { unfold m'. destruct (_ - _); try lia. apply Z.shiftl_nonneg. lia. }
  pose proof (Z_div_mod m' (Zpos m2) ltac:(lia)) as Hdiv.
  destruct (Z.div_eucl m' (Zpos m2)) as [q r].
  apply has_sign_nonneg, binary_round_aux_sign. nia.
Qed.

Lemma nonneg_not_nan x : nonneg_number (Prim2SF x) → is_nan x = false.
Proof.
  unfold is_nan. rewrite FloatAxioms.eqb_spec. unfold SFeqb.
  destruct (Prim2SF x) as [[]|[]| |[] m e]; simpl; try done.
  intros _. by rewrite Z.compare_refl, Pos.compare_cont_refl.
Qed.

Lemma of_uint63_nonneg n : nonneg_number (Prim2SF (of_uint63 n)).
Proof.
  rewrite of_uint63_spec. pose proof (Uint63.to_Z_bounded n) as [Hn _].
  destruct (Uint63Axioms.to_Z n); simpl; [done| |lia].
  apply has_sign_nonneg, binary_round_sign.
Qed.

(** The weighted sum of [calculate_priority] is a number when its weights
    are positive and finite and its four inputs are not negative. *)
Lemma weighted_sum_number wu wi we wd u i e d :
  (∃ m x, Prim2SF wu = S754_finite false m x) →
  (∃ m x, Prim2SF wi = S754_finite false m x) →
  (∃ m x, Prim2SF we = S754_finite false m x) →
  (∃ m x, Prim2SF wd = S754_finite false m x) →
  nonneg_number (Prim2SF u) → nonneg_number (Prim2SF i) →
  nonneg_number (Prim2SF e) → nonneg_number (Prim2SF d) →
  is_nan (wu * u + wi * i + we * e + wd * d)%float = false.
Proof.
  intros (? & ? & Hwu) (? & ? & Hwi) (? & ? & Hwe) (? & ? & Hwd) Hu Hi He Hd.
  apply nonneg_not_nan. rewrite !add_spec, !mul_spec, Hwu, Hwi, Hwe, Hwd.
  repeat apply SFadd_nonneg; by apply SFmul_nonneg.
Qed.

(** [ldexp] and the conversion from integers give numbers. *)
Lemma ldexp_of_uint63_number n e : is_nan (Z.ldexp (of_uint63 n) e) = false.
Proof.
  apply nonneg_not_nan. unfold Z.ldexp. rewrite ldshiftexp_spec.
  pose proof (of_uint63_nonneg n) as Hn.
  destruct (Prim2SF (of_uint63 n)) as [[]|[]| |[] m x]; simpl; try done.
  apply has_sign_nonneg, binary_round_sign.
Qed.

Lemma float_of_ratio_number p q : is_nan (float_of_ratio p q) = false.
Proof. apply ldexp_of_uint63_number. Qed.

Lemma is_nan_opp x : is_nan (- x) = is_nan x.
Proof.
  unfold is_nan. rewrite !FloatAxioms.eqb_spec, opp_spec. unfold SFeqb.
  destruct (Prim2SF x) as [[]|[]| |[] m e]; simpl; try done.
  all: rewrite Z.compare_refl, Pos.compare_cont_refl; done.
Qed.

Lemma ref_round3_number : rounds_numbers ref_runtime.
Proof.
  intros x Hx. simpl. unfold Ref.ref_round3.
  destruct (Prim2SF x) as [?|?| |s m e]; try done.
  destruct (0 <=? e); [done|].
  assert (is_nan (if div_half_even (Zpos m * 1000) (2 ^ (- e)) =? 0 then 0%float
                  else float_of_ratio (div_half_even (Zpos m * 1000) (2 ^ (- e))) 1000)
          = false) as Hr.
  { case_match; [done|apply float_of_ratio_number]. }
  destruct s; [|done]. by rewrite is_nan_opp.
Qed.

(** * The stable descending sort *)

Section SortDesc.
Context {A : Type}.
Implicit Types (x : float * A) (l : list (float * A)).

Lemma insert_desc_perm x l : insert_desc x l ≡ₚ x :: l.
Proof.
  induction l as [|y l IH]; simpl; [done|].
  case_match; [|done]. rewrite IH. apply Permutation_swap.
Qed.

Lemma sort_desc_perm l : sort_desc l ≡ₚ l.
Proof.
  induction l as [|x l IH]; simpl; [done|].
  by rewrite insert_desc_perm, IH.
Qed.

Lemma sort_desc_length l : length (sort_desc l) = length l.
Proof. apply Permutation_length, sort_desc_perm. Qed.

Lemma insert_desc_sorted x l :
  is_nan x.1 = false → Forall (λ y, is_nan y.1 = false) l →
  StronglySorted key_ge l → StronglySorted key_ge (insert_desc x l).
Proof.
  intros Hx Hl Hs. induction Hs as [|y l Hs IH Hy]; simpl.
  - repeat constructor.
  - apply Forall_cons in Hl as [Hny Hl].
    destruct (x.1 <? y.1)%float eqn:Hlt.
    + constructor; [by apply IH|].
      rewrite insert_desc_perm. constructor; [|done].
      by apply float_ltb_leb.
    + assert (key_ge x y) as Hxy by (by apply float_leb_total).
      constructor; [by constructor|]. constructor; [done|].
      eapply Forall_impl; [done|]. intros z Hz. unfold key_ge in *.
      by eapply float_leb_trans.
Qed.

Lemma sort_desc_sorted l :
  Forall (λ y, is_nan y.1 = false) l → StronglySorted key_ge (sort_desc l).
Proof.
  induction l as [|x l IH]; simpl; intros Hl; [constructor|].
  apply Forall_cons in Hl as [Hx Hl]. apply insert_desc_sorted; [done| |by apply IH].
  by rewrite sort_desc_perm.
Qed.

End SortDesc.

(** * The graph of a batch *)

Lemma graph_set_keys g k v x :
  x ∈ graph_keys (graph_set g k v) ↔ x = k ∨ x ∈ graph_keys g.
Proof.
  unfold graph_keys. induction g as [|[k' v'] g IH]; simpl.
  - rewrite list_elem_of_singleton, elem_of_nil. tauto.
  - case_decide as Hk; simpl; rewrite !elem_of_cons; [subst; tauto|].
    rewrite IH. tauto.
Qed.

Section Batch.
Context {R : PyRuntime}.

Lemma build_graph_from_keys tasks : ∀ idx g0 g x,
  build_graph_from idx tasks g0 = Ok g → x ∈ graph_keys g →
  x ∈ graph_keys g0 ∨ ∃ i t, tasks !! i = Some t ∧ task_id (idx + i) t = Ok x.
Proof.
  induction tasks as [|t tasks IH]; intros idx g0 g x Hb Hx; simpl in Hb.
  - injection Hb as <-. by left.
  - assert (∀ i t', tasks !! i = Some t' ∧ task_id (S idx + i) t' = Ok x →
              ∃ i t', (t :: tasks) !! i = Some t' ∧ task_id (idx + i) t' = Ok x) as Hshift.
    { intros i t' [Hi Ht']. exists (S i), t'. split; [done|].
      by replace (idx + S i)%nat with (S idx + i)%nat by lia. }
    destruct (task_id idx t) as [tid|e] eqn:Htid.
    + destruct (py_iter _) as [deps_raw|e]; simpl in Hb; [|done].
      destruct (IH _ _ _ _ Hb Hx) as [Hin|(i & t' & H')]; [|right; by eapply Hshift].
      apply graph_set_keys in Hin as [->|Hin]; [|by left].
      right. exists 0%nat, t. split; [done|]. by rewrite Nat.add_0_r.
    + destruct (IH _ _ _ _ Hb Hx) as [Hin|(i & t' & H')]; [by left|].
      right. by eapply Hshift.
Qed.

Lemma build_graph_keys tasks g x :
  build_graph tasks = Ok g → x ∈ graph_keys g →
  ∃ i t, tasks !! i = Some t ∧ task_id i t = Ok x.
Proof.
  intros Hb Hx. destruct (build_graph_from_keys tasks 0 [] g x Hb Hx) as [Hin|H']; [|done].
  by apply elem_of_nil in Hin.
Qed.

Lemma build_graph_from_total tasks : ∀ idx g0,
  Forall deps_iterable tasks → ∃ g, build_graph_from idx tasks g0 = Ok g.
Proof.
  induction tasks as [|t tasks IH]; intros idx g0 Hall; simpl; [by eexists|].
  apply Forall_cons in Hall as [[l Hl] Hall].
  destruct (task_id idx t); [|by apply IH].
  rewrite Hl. simpl. by apply IH.
Qed.

Lemma graph_set_length g k v : (length (graph_set g k v) ≤ S (length g))%nat.
Proof.
  induction g as [|[k' v'] g IH]; simpl; [lia|]. case_decide; simpl; lia.
Qed.

(** The graph has at most one key for each task. *)
Lemma build_graph_from_length tasks : ∀ idx g0 g,
  build_graph_from idx tasks g0 = Ok g → (length g ≤ length g0 + length tasks)%nat.
Proof.
  induction tasks as [|t tasks IH]; intros idx g0 g Hb; simpl in Hb.
  - injection Hb as <-. lia.
  - destruct (task_id idx t) as [tid|e].
    + destruct (py_iter _) as [deps_raw|e]; simpl in Hb; [|done].
      apply IH in Hb. pose proof (graph_set_length g0 tid (collect_deps deps_raw)).
      simpl. lia.
    + apply IH in Hb. simpl. lia.
Qed.

Lemma build_graph_length tasks g :
  build_graph tasks = Ok g → (length g ≤ length tasks)%nat.
Proof. intros Hb%build_graph_from_length. simpl in Hb. lia. Qed.

(** The detector is the search over the graph of the batch. *)
Lemma detect_search tasks g :
  build_graph tasks = Ok g →
  detect_circular_dependencies tasks = find_cycles recursion_frames g.
Proof. intros Hb. unfold detect_circular_dependencies. by rewrite Hb. Qed.

(** The detector returns whenever the graph can be built and the frames
    left are two more than the batch has tasks. *)
Lemma detect_total tasks g :
  build_graph tasks = Ok g → (length tasks + 2 ≤ recursion_frames)%nat →
  ∃ cs, detect_circular_dependencies tasks = Ok cs
        ∧ find_cycles recursion_frames g = Ok cs.
Proof.
  intros Hb Hroom. rewrite (detect_search tasks g Hb).
  destruct (find_cycles_total g recursion_frames) as [cs Hcs]; [|by exists cs].
  pose proof (build_graph_length tasks g Hb). lia.
Qed.

End Batch.

(** * The adjacency map *)

Lemma graph_get_set g k v k' :
  graph_get (graph_set g k v) k' = if decide (k = k') then v else graph_get g k'.
Proof.
  induction g as [|[k0 v0] g IH]; simpl.
  - done.
  - destruct (decide (k0 = k)) as [->|Hne]; simpl.
    + repeat case_decide; congruence.
    + rewrite IH. repeat case_decide; congruence.
Qed.

Lemma graph_set_nodup g k v : NoDup (graph_keys g) → NoDup (graph_keys (graph_set g k v)).
Proof.
  unfold graph_keys. induction g as [|[k0 v0] g IH]; simpl; intros Hnd.
  - apply NoDup_singleton.
  - apply NoDup_cons in Hnd as [Hk0 Hnd]. case_decide as Hk; simpl.
    + subst. by apply NoDup_cons.
    + apply NoDup_cons. split; [|by apply IH].
      intros [->|Hin]%(graph_set_keys g k v k0); [done|by apply Hk0].
Qed.

Section Adjacency.
Context {R : PyRuntime}.

Lemma collect_from_spec deps_raw : ∀ seen,
  NoDup seen →
  ∃ new, foldl seen_deps_step seen deps_raw = seen ++ new
    ∧ NoDup (seen ++ new) ∧ new `sublist_of` dep_ids deps_raw
    ∧ ∀ x, x ∈ dep_ids deps_raw → x ∈ seen ++ new.
Proof.
  induction deps_raw as [|d ds IH]; intros seen Hnd; simpl.
  - exists []. rewrite app_nil_r. split_and!; try done. by intros x ?%elem_of_nil.
  - unfold seen_deps_step at 2, dep_ids. simpl. fold (dep_ids ds).
    destruct (py_int d) as [di|e]; simpl.
    + case_decide as Hin.
      * destruct (IH seen Hnd) as (new & Heq & Hnd' & Hsub & Hall).
        exists new. split_and!; try done.
        -- by apply sublist_cons.
        -- intros x [->|Hx]%elem_of_cons; [|by apply Hall].
           apply elem_of_app. by left.
      * destruct (IH (seen ++ [di])) as (new & Heq & Hnd' & Hsub & Hall).
        { apply NoDup_app. split_and!; [done| |apply NoDup_singleton].
          by intros x Hx ->%list_elem_of_singleton. }
        exists (di :: new). rewrite <- app_assoc in Heq, Hnd', Hall.
        split_and!; try done.
        -- by apply sublist_skip.
        -- intros x [->|Hx]%elem_of_cons; [|by apply Hall].
           rewrite elem_of_app, elem_of_cons. tauto.
    + apply IH, Hnd.
Qed.

Lemma build_graph_from_nodup tasks : ∀ idx g0 g,
  build_graph_from idx tasks g0 = Ok g → NoDup (graph_keys g0) → NoDup (graph_keys g).
Proof.
  induction tasks as [|t tasks IH]; intros idx g0 g Hb Hnd; simpl in Hb.
  - by injection Hb as <-.
  - destruct (task_id idx t) as [tid|e]; [|by eapply IH].
    destruct (py_iter _) as [deps_raw|e]; simpl in Hb; [|done].
    eapply IH; [done|]. by apply graph_set_nodup.
Qed.

Lemma build_graph_from_get tasks : ∀ idx g0 g k,
  build_graph_from idx tasks g0 = Ok g →
  (∀ j t, tasks !! j = Some t → task_id (idx + j) t ≠ Ok k) →
  graph_get g k = graph_get g0 k.
Proof.
  induction tasks as [|t tasks IH]; intros idx g0 g k Hb Hnone; simpl in Hb.
  - by injection Hb as <-.
  - assert (∀ j t', tasks !! j = Some t' → task_id (S idx + j) t' ≠ Ok k) as Hrest.
    { intros j t' Hj. specialize (Hnone (S j) t' Hj).
      by replace (idx + S j)%nat with (S idx + j)%nat in Hnone by lia. }
    specialize (Hnone 0%nat t eq_refl). rewrite Nat.add_0_r in Hnone.
    destruct (task_id idx t) as [tid|e]; [|by eapply IH].
    destruct (py_iter _) as [deps_raw|e]; simpl in Hb; [|done].
    rewrite (IH _ _ _ _ Hb Hrest), graph_get_set. case_decide; congruence.
Qed.

Lemma build_graph_from_last tasks : ∀ idx g0 g i t k deps_raw,
  build_graph_from idx tasks g0 = Ok g →
  tasks !! i = Some t → task_id (idx + i) t = Ok k →
  (∀ j t', (i < j)%nat → tasks !! j = Some t' → task_id (idx + j) t' ≠ Ok k) →
  py_iter (py_or (dict_get t "dependencies") (VList [])) = Ok deps_raw →
  graph_get g k = collect_deps deps_raw.
Proof.
  induction tasks as [|t0 tasks IH]; intros idx g0 g i t k deps_raw Hb Hi Hid Hlast Hdeps;
    simpl in Hb; [done|].
  destruct i as [|i]; simpl in Hi.
  - injection Hi as ->. rewrite Nat.add_0_r in Hid. rewrite Hid, Hdeps in Hb. simpl in Hb.
    rewrite (build_graph_from_get _ _ _ _ k Hb).
    + rewrite graph_get_set. by case_decide.
    + intros j t' Hj. replace (S idx + j)%nat with (idx + S j)%nat by lia.
      apply Hlast; [lia|done].
  - assert (build_graph_from (S idx) tasks
              match task_id idx t0 with
              | Ok tid =>
                  match py_iter (py_or (dict_get t0 "dependencies") (VList [])) with
                  | Ok l => graph_set g0 tid (collect_deps l)
                  | Raise _ => g0
                  end
              | Raise _ => g0
              end = Ok g) as Hb'.
    { destruct (task_id idx t0); [|done]. by destruct (py_iter _). }
    eapply (IH _ _ _ i t k); try done.
    + by replace (S idx + i)%nat with (idx + S i)%nat by lia.
    + intros j t' Hj Hj'. replace (S idx + j)%nat with (idx + S j)%nat by lia.
      apply Hlast; [lia|done].
Qed.

Lemma build_graph_from_has_key tasks : ∀ idx g0 g i t k,
  build_graph_from idx tasks g0 = Ok g →
  tasks !! i = Some t → task_id (idx + i) t = Ok k → k ∈ graph_keys g.
Proof.
  induction tasks as [|t0 tasks IH]; intros idx g0 g i t k Hb Hi Hid; simpl in Hb; [done|].
  assert (∀ g1 g', build_graph_from (S idx) tasks g1 = Ok g' →
            ∀ x, x ∈ graph_keys g1 → x ∈ graph_keys g') as Hmono.
  { clear. revert idx. induction tasks as [|t tasks IH]; intros idx g1 g' Hb x Hx;
      simpl in Hb.
    - by injection Hb as <-.
    - destruct (task_id (S idx) t) as [tid|e]; [|by eapply IH].
      destruct (py_iter _) as [deps_raw|e]; simpl in Hb; [|done].
      eapply IH; [done|]. apply graph_set_keys. by right. }
  destruct i as [|i]; simpl in Hi.
  - injection Hi as ->. rewrite Nat.add_0_r in Hid. rewrite Hid in Hb.
    destruct (py_iter _) as [deps_raw|e]; simpl in Hb; [|done].
    eapply Hmono; [done|]. apply graph_set_keys. by left.
  - replace (idx + S i)%nat with (S idx + i)%nat in Hid by lia.
    destruct (task_id idx t0) as [tid|e]; [|by eapply IH].
    destruct (py_iter _) as [deps_raw|e]; simpl in Hb; [|done].
    by eapply IH.
Qed.

Lemma collect_deps_nodup deps_raw : NoDup (collect_deps deps_raw).
Proof.
  destruct (collect_from_spec deps_raw [] NoDup_nil_2) as (new & Heq & Hnd & _).
  unfold collect_deps. by rewrite Heq.
Qed.

Lemma collect_deps_elem deps_raw x :
  x ∈ collect_deps deps_raw ↔ ∃ d, d ∈ deps_raw ∧ py_int d = Ok x.
Proof.
  destruct (collect_from_spec deps_raw [] NoDup_nil_2) as (new & Heq & Hnd & Hsub & Hall).
  simpl in *. unfold collect_deps. rewrite Heq. split.
  - intros Hx. eapply elem_of_sublist in Hx; [|done]. unfold dep_ids in Hx.
    apply list_elem_of_omap in Hx as (d & Hd & Hconv). exists d. split; [done|].
    by destruct (py_int d); simplify_eq.
  - intros (d & Hd & Hconv). apply Hall. unfold dep_ids. apply list_elem_of_omap.
    exists d. split; [done|]. by rewrite Hconv.
Qed.

Lemma build_graph_from_lists_nodup tasks : ∀ idx g0 g,
  build_graph_from idx tasks g0 = Ok g →
  (∀ k, NoDup (graph_get g0 k)) → ∀ k, NoDup (graph_get g k).
Proof.
  induction tasks as [|t tasks IH]; intros idx g0 g Hb Hnd; simpl in Hb.
  - by injection Hb as <-.
  - destruct (task_id idx t) as [tid|e]; [|by eapply IH].
    destruct (py_iter _) as [deps_raw|e]; simpl in Hb; [|done].
    eapply IH; [done|]. intros k. rewrite graph_get_set.
    case_decide; [apply collect_deps_nodup|apply Hnd].
Qed.

End Adjacency.

(** * The verdict does not depend on the order of the tasks *)

Lemma tc_ext {A} (R1 R2 : relation A) x y :
  (∀ a b, R1 a b → R2 a b) → tc R1 x y → tc R2 x y.
Proof.
  intros Hsub. induction 1 as [a b Hab|a b c Hab _ IH].
  - by apply tc_once, Hsub.
  - eapply tc_l; [|done]. by apply Hsub.
Qed.

Lemma has_cycle_ext g g' :
  (∀ u v, edge g u v ↔ edge g' u v) → has_cycle g → has_cycle g'.
Proof.
  intros Hext [u Hu]. exists u.
  assert (∀ x y, tc (edge g) x y → tc (edge g') x y) as Htc; [|by apply Htc].
  induction 1 as [x y Hxy|x y z Hxy _ IH].
  - apply tc_once. by apply Hext.
  - eapply tc_l; [|done]. by apply Hext.
Qed.

Section Order.
Context {R : PyRuntime}.

Lemma explicit_task_id (t : task) n i : explicit_id t = Some n → task_id i t = Ok n.
Proof.
  unfold explicit_id, task_id, dict_get, py_or.
  destruct (t !! "id") as [[| |m| | | |]|]; try done. simpl.
  destruct (m =? 0); [done|]. by intros [= ->].
Qed.

(** Unless the id is one that Python takes for false, the detector keys
    a task by the id that [assign_ids] leaves it with. *)
Lemma task_id_at (t : task) i : id_truthy t → task_id i t = py_int (id_at i t).
Proof.
  unfold id_truthy, task_id, id_at, dict_get, py_or. intros Hid.
  destruct (t !! "id") as [v|]; simpl; [|done]. by rewrite (Hid v eq_refl).
Qed.

(** With ids given and distinct, the edges of the graph are read off the
    tasks one by one. *)
Lemma build_graph_edges (tasks : list task) (g : graph) :
  Forall (λ t, is_Some (explicit_id t)) tasks → NoDup (explicit_id <$> tasks) →
  Forall deps_iterable tasks → build_graph tasks = Ok g →
  ∀ u v, edge g u v ↔
    ∃ t l, t ∈ tasks ∧ explicit_id t = Some u
      ∧ py_iter (py_or (dict_get t "dependencies") (VList [])) = Ok l
      ∧ v ∈ collect_deps l.
Proof.
  intros Hids Hnd Hiter Hg u v.
  assert (∀ i t, tasks !! i = Some t → explicit_id t = Some u →
            ∃ l, py_iter (py_or (dict_get t "dependencies") (VList [])) = Ok l
                 ∧ graph_get g u = collect_deps l) as Hrow.
  { intros i t Hi Hid.
    destruct (proj1 (Forall_lookup _ _) Hiter i t Hi) as [l Hl]. exists l. split; [done|].
    apply (build_graph_from_last tasks 0 [] g i t u l); try done.
    - by apply explicit_task_id.
    - intros j t' Hij Hj Hid'. simpl in Hid'.
      destruct (proj1 (Forall_lookup _ _) Hids j t' Hj) as [n Hn].
      rewrite (explicit_task_id t' n j Hn) in Hid'. injection Hid' as ->.
      assert (i = j); [|lia].
      eapply (NoDup_lookup _ i j (Some u) Hnd); rewrite list_lookup_fmap.
      + by rewrite Hi; simpl; rewrite Hid.
      + by rewrite Hj; simpl; rewrite Hn. }
  unfold edge. split.
  - intros Hv. assert (u ∈ graph_keys g) as Hu.
    { apply graph_get_keys. intros Hnil. rewrite Hnil in Hv. by apply elem_of_nil in Hv. }
    apply (build_graph_keys tasks g u Hg) in Hu as (i & t & Hi & Hid).
    destruct (proj1 (Forall_lookup _ _) Hids i t Hi) as [n Hn].
    rewrite (explicit_task_id t n i Hn) in Hid. injection Hid as ->.
    destruct (Hrow i t Hi Hn) as (l & Hl & Hget). exists t, l.
    split; [by eapply list_elem_of_lookup_2|]. split; [done|]. split; [done|].
    by rewrite <- Hget.
  - intros (t & l & Ht & Hid & Hl & Hv). apply list_elem_of_lookup in Ht as [i Hi].
    destruct (Hrow i t Hi Hid) as (l' & Hl' & Hget). rewrite Hl in Hl'.
    injection Hl' as <-. by rewrite Hget.
Qed.

End Order.

(** * The claims about the cycle detector *)

(** C1. The batch of one task with id 1 that depends on [1]: the detector
    reports the closed path [1, 1], not the one-element path [1] that its
    docstring announces. *)
Theorem self_dependency_reported_closed :
  detect_circular_dependencies (R := ref_runtime) [dep_task 1 [1]] = Ok [[1; 1]].
Proof. vm_compute. reflexivity. Qed.


(** C10, as stated, fails. A task with the id 0 is keyed by its position:
    when it depends on [1], the detector reports the cycle [1, 1], though
    the only task of the batch has the id 0. And a dependency on an id that
    no task carries can make the detector fail: with the 997 frames of the
    reference runtime a chain of 997 tasks is searched when the last has no
    dependency, but the search raises [RecursionError] when the last
    depends on the id 998, which no task carries. *)
Lemma dangling_dependency_counts :
  detect_circular_dependencies (R := ref_runtime) [dep_task 0 [1]] = Ok [[1; 1]]
  ∧ id_at 0 (dep_task 0 [1]) = VInt 0
  ∧ detect_circular_dependencies (R := ref_runtime)
      (chain_batch 996 ++ [dep_task 997 []]) = Ok []
  ∧ detect_circular_dependencies (R := ref_runtime)
      (chain_batch 996 ++ [dep_task 997 [998]]) = Raise RecursionError.
Proof. split_and!; vm_compute; reflexivity. Qed.

Section Detector.
Context {R : PyRuntime}.


(** C10, amended. For every batch whose dependency fields can be
    iterated, in which no task carries an id that Python takes for false,
    and with two more frames left than the batch has tasks: the detector
    returns, and every id on a reported cycle is the id (as [int] reads it)
    of a task of the batch, its own or its position counted from 1. An id
    that no task carries has no outgoing edge and lies on no reported
    cycle. *)
Theorem cycle_nodes_are_tasks (tasks : list task) :
  Forall deps_iterable tasks → Forall id_truthy tasks →
  (length tasks + 2 ≤ recursion_frames)%nat →
  ∃ g cs, build_graph tasks = Ok g
    ∧ detect_circular_dependencies tasks = Ok cs
    ∧ (∀ c x, c ∈ cs → x ∈ c →
         ∃ i t, tasks !! i = Some t ∧ py_int (id_at i t) = Ok x)
    ∧ (∀ x, (∀ i t, tasks !! i = Some t → py_int (id_at i t) ≠ Ok x) →
         graph_get g x = [] ∧ ∀ c, c ∈ cs → x ∉ c).
Proof.
  intros Hall Hids Hroom. destruct (build_graph_from_total tasks 0 [] Hall) as [g Hb].
  destruct (detect_total tasks g Hb Hroom) as (cs & Hd & Hf).
  assert (∀ x, graph_get g x ≠ [] →
            ∃ i t, tasks !! i = Some t ∧ py_int (id_at i t) = Ok x) as Hkey.
  { intros x Hout%graph_get_keys.
    destruct (build_graph_keys tasks g x Hb Hout) as (i & t & Hi & Hid).
    exists i, t. split; [done|]. rewrite <- Hid. symmetry. apply task_id_at.
    by eapply (proj1 (Forall_lookup _ _) Hids). }
  exists g, cs. split_and!; [done..| |].
  - intros c x Hc Hx. apply Hkey. by eapply find_cycles_nodes.
  - intros x Hnone.
    assert (graph_get g x = []) as Hnil.
    { destruct (graph_get g x) as [|y l] eqn:Hget; [done|].
      destruct (Hkey x) as (i & t & Hi & Hid); [by rewrite Hget|].
      by destruct (Hnone i t Hi). }
    split; [done|]. intros c Hc Hx.
    by apply (find_cycles_nodes g recursion_frames cs c x Hf Hc Hx).
Qed.

End Detector.


Lemma cycle_nodes_are_tasks_witness :
  let batch := [dep_task 1 [2; 99]; dep_task 2 [1]] in
  ∃ g cs, build_graph (R := ref_runtime) batch = Ok g
    ∧ detect_circular_dependencies (R := ref_runtime) batch = Ok cs
    ∧ (∀ c x, c ∈ cs → x ∈ c →
         ∃ i t, batch !! i = Some t ∧ py_int (R := ref_runtime) (id_at i t) = Ok x)
    ∧ (∀ x, (∀ i t, batch !! i = Some t → py_int (R := ref_runtime) (id_at i t) ≠ Ok x) →
         graph_get g x = [] ∧ ∀ c, c ∈ cs → x ∉ c).
Proof.
  apply (cycle_nodes_are_tasks (R := ref_runtime)).
  - repeat constructor; by eexists.
  - repeat constructor; intros v [= <-]; reflexivity.
  - simpl. lia.
Defined.

(** * The claims about the scorer *)

Lemma before_T_spec (s : string) :
  ("T"%char ∉ list_ascii_of_string (before_T s))
  ∧ (before_T s = s ∨ ∃ r, s = before_T s +:+ String "T" r).
Proof.
  split.
  - induction s as [|c s IH]; simpl; [apply not_elem_of_nil|].
    destruct (Ascii.eqb_spec c "T") as [->|Hc]; simpl; [apply not_elem_of_nil|].
    apply not_elem_of_cons. by split.
  - induction s as [|c s IH]; simpl; [by left|].
    destruct (Ascii.eqb_spec c "T") as [->|Hc]; simpl.
    + right. by exists s.
    + destruct IH as [->|[r Hr]]; [by left|]. right. exists r.
      change (String c s = String c (before_T s +:+ String "T" r)). by f_equal.
Qed.

Section Scorer.
Context {R : PyRuntime}.

(** C5. Against the current date, with the days until due counted as the
    difference of the two calendar days, the urgency of a due date is 10.0
    when it is overdue (however long), 9.0 when due today, 7.0 when due in
    1 to 3 days, 5.0 in 4 to 7 days, and 3.0 in 8 days or more. *)
Theorem calculate_urgency_table (today due_date : date) :
  let days := toordinal due_date - toordinal today in
  let urgency := calculate_urgency today due_date in
  (days < 0 ∧ urgency = 10.0%float)
  ∨ (days = 0 ∧ urgency = 9.0%float)
  ∨ (1 ≤ days ≤ 3 ∧ urgency = 7.0%float)
  ∨ (4 ≤ days ≤ 7 ∧ urgency = 5.0%float)
  ∨ (8 ≤ days ∧ urgency = 3.0%float).
Proof.
  intros days urgency. unfold urgency, calculate_urgency, days_between. fold days.
  destruct (Z.ltb_spec days 0); [by left|].
  destruct (Z.eqb_spec days 0); [by right; left|].
  destruct (Z.leb_spec days 3); [right; right; left; split; [lia|done]|].
  destruct (Z.leb_spec days 7); [right; right; right; left; split; [lia|done]|].
  right; right; right; right. split; [lia|done].
Qed.

(** C6. The date normalizer returns a date unchanged; a string is parsed
    as a whole, then, if that fails, up to its first ['T'] (the part that
    has no ['T'] and is either the whole string or is followed by one), and
    if both fail the error carries the string; a value of any other type
    is refused with the invalid-date error. *)
Theorem ensure_date_contract (d : value) :
  match d with
  | VDate d' => _ensure_date d = Ok d'
  | VStr s =>
      _ensure_date d =
        match fromisoformat s with
        | Some r => Ok r
        | None =>
            match fromisoformat (before_T s) with
            | Some r => Ok r
            | None => Raise (InvalidDateString s)
            end
        end
      ∧ ("T"%char ∉ list_ascii_of_string (before_T s))
      ∧ (before_T s = s ∨ ∃ r, s = before_T s +:+ String "T" r)
  | _ => _ensure_date d = Raise (InvalidDateType (type_of d))
  end.
Proof.
  destruct d as [| | | |s| |]; try done. split; [done|].
  apply before_T_spec.
Qed.

(** C4, amended. For a task whose due date normalizes, whose importance
    and hours are accepted by [float] (hours other than -1) and whose
    dependencies are a list or missing, the priority is [round(w_u * urgency + w_i * importance +
    w_e * effort + w_d * count, 3)]: [count] is the length of the
    dependency list as given, a missing importance counts as 1, missing
    hours as 0, missing weights as 0.4, 0.4, 0.15 and 0.05; the other tasks
    of the batch play no part. *)
Theorem calculate_priority_formula (today : date) (t : task) (all_tasks : list task)
    (weights : gmap string float) (raw : value) (due : date)
    (importance hours : float) (deps : list value) :
  t !! "due_date" = Some raw → _ensure_date raw = Ok due →
  py_float (default (VInt 1) (t !! "importance")) = Ok importance →
  py_float (default (VInt 0) (t !! "estimated_hours")) = Ok hours →
  (hours + 1 =? 0)%float = false →
  default (VList []) (t !! "dependencies") = VList deps →
  calculate_priority today t all_tasks weights
  = Ok (round3 (default 0.4 (weights !! "urgency") * calculate_urgency today due
                + default 0.4 (weights !! "importance") * importance
                + default 0.15 (weights !! "effort") * (10.0 / (hours + 1.0))
                + default 0.05 (weights !! "dependency") * float_of_len (length deps))%float)
  ∧ ∀ others, calculate_priority today t others weights
              = calculate_priority today t all_tasks weights.
Proof.
  intros Hraw Hdue Himp Hhours Hnz Hdeps. split; [|done].
  unfold calculate_priority, dict_item, dict_get_default, calculate_effort_score,
    float_div, weight.
  rewrite Hraw. simpl. rewrite Hdue. simpl. rewrite Himp. simpl. rewrite Hhours.
  simpl. rewrite Hnz. simpl.
  assert (py_len (py_or (dict_get t "dependencies") (VList [])) = Ok (length deps)) as ->.
  { unfold dict_get. destruct (t !! "dependencies") as [v|]; simpl in *.
    - subst v. by destruct deps.
    - by injection Hdeps as <-. }
  done.
Qed.

(** C2, amended. A task whose importance is present but is not accepted by
    [float] makes [calculate_priority] raise the conversion error: no
    default stands in. [calculate_effort_score] by itself does replace a
    value that [float] rejects by 0 and returns 10.0. *)
Theorem non_numeric_fields (today : date) (t : task) (all_tasks : list task)
    (weights : gmap string float) (raw v : value) (due : date) (e : exn) :
  t !! "due_date" = Some raw → _ensure_date raw = Ok due →
  t !! "importance" = Some v → py_float v = Raise e →
  calculate_priority today t all_tasks weights = Raise e
  ∧ ∀ hours e', py_float hours = Raise e' → calculate_effort_score hours = Ok 10.0%float.
Proof.
  intros Hraw Hdue Hv He. split.
  - unfold calculate_priority, dict_item, dict_get_default.
    rewrite Hraw. simpl. rewrite Hdue. simpl. rewrite Hv. simpl. by rewrite He.
  - intros hours e' Hh. unfold calculate_effort_score. by rewrite Hh.
Qed.

End Scorer.

Lemma calculate_priority_formula_witness :
  calculate_priority (R := ref_runtime) (Date 739585) sample_task [] ∅ = Ok 6.475%float
  ∧ ∀ others, calculate_priority (R := ref_runtime) (Date 739585) sample_task others ∅
              = calculate_priority (R := ref_runtime) (Date 739585) sample_task [] ∅.
Proof.
  exact (calculate_priority_formula (R := ref_runtime) (Date 739585) sample_task [] ∅
           (VStr "2025-11-28T09:00:00") (Date 739583) 5 3 [VInt 7; VInt 7]
           eq_refl eq_refl eq_refl eq_refl eq_refl eq_refl).
Defined.

(** C4, as stated, fails: a task with a valid due date whose importance
    is [None] (a JSON [null]) gets no score, [float(None)] raises. *)
Lemma null_importance_raises :
  _ensure_date (R := ref_runtime) (dict_get sample_task "due_date") = Ok (Date 739583)
  ∧ calculate_priority (R := ref_runtime) (Date 739585)
      (<["importance" := VNone]> sample_task) [] DEFAULT_WEIGHTS
    = Raise TypeError.
Proof. split; vm_compute; reflexivity. Qed.

(** The urgency table at work: due in two days. *)
Lemma calculate_urgency_table_witness :
  calculate_urgency (Date 739585) (Date 739587) = 7.0%float
  ∧ calculate_urgency (Date 739585) (Date 739500) = 10.0%float.
Proof.
  split.
  - destruct (calculate_urgency_table (Date 739585) (Date 739587))
      as [[H _]|[[H _]|[[_ H]|[[H _]|[H _]]]]]; simpl in H; first [exact H | lia].
  - destruct (calculate_urgency_table (Date 739585) (Date 739500))
      as [[_ H]|[[H _]|[[H _]|[[H _]|[H _]]]]]; simpl in H; first [exact H | lia].
Defined.

(** C2, as stated, fails: an importance that is text makes
    [calculate_priority] raise instead of returning a score. *)
Lemma text_importance_raises :
  calculate_priority (R := ref_runtime) (Date 739585)
    (<["importance" := VStr "high"]> sample_task) [] DEFAULT_WEIGHTS
  = Raise ValueError.
Proof. vm_compute. reflexivity. Qed.

Lemma non_numeric_fields_witness :
  calculate_priority (R := ref_runtime) (Date 739585)
    (<["importance" := VStr "high"]> sample_task) [] DEFAULT_WEIGHTS = Raise ValueError
  ∧ ∀ hours e', py_float (R := ref_runtime) hours = Raise e' →
                calculate_effort_score (R := ref_runtime) hours = Ok 10.0%float.
Proof.
  exact (non_numeric_fields (R := ref_runtime) (Date 739585)
           (<["importance" := VStr "high"]> sample_task) [] DEFAULT_WEIGHTS
           (VStr "2025-11-28T09:00:00") (VStr "high") (Date 739583) ValueError
           eq_refl eq_refl eq_refl eq_refl).
Defined.

(** * Monotonicity of the effort score *)




Section Effort.
Context {R : PyRuntime}.



End Effort.


(** * The explanation of a suggestion *)







Section Explanation.
Context {R : PyRuntime}.

Lemma explanation_parts_eq today (t : task) importance deps :
  t !! "importance" = Some (VInt importance) →
  default (VList []) (t !! "dependencies") = VList deps →
  explanation_parts today t
  = Ok (due_phrase today (default VNone (t !! "due_date"))
        ++ (if 8 <=? importance then ["High importance"] else [])
        ++ (if (try_except (py_float (default (VInt 999) (t !! "estimated_hours")))
                           999.0 <=? 2)%float
            then ["Quick win (low effort)"] else [])
        ++ (if truthy (VList deps)
            then ["Blocks " +:+ str_of_int (Z.of_nat (length deps)) +:+ " task(s)"]
            else [])).
Proof.
  intros Himp Hdeps. unfold explanation_parts, dict_get_default, dict_get.
  rewrite Himp.
  assert (py_or (default VNone (t !! "dependencies")) (VList []) = VList deps) as ->.
  { destruct (t !! "dependencies") as [v|]; simpl in *; [|done].
    subst v. by destruct deps. }
  destruct deps as [|dep deps]; simpl; by rewrite ?app_nil_r, <- ?app_assoc.
Qed.


End Explanation.


(** * The analyze endpoint *)

Lemma assign_ids_length tasks : length (assign_ids tasks) = length tasks.
Proof. apply length_imap. Qed.

Lemma assign_ids_lookup tasks i :
  assign_ids tasks !! i
  = (λ t, match t !! "id" with
          | Some _ => t
          | None => <["id" := VInt (Z.of_nat i + 1)]> t
          end) <$> tasks !! i.
Proof. unfold assign_ids. by rewrite list_lookup_imap. Qed.

Lemma assign_ids_validated tasks :
  Forall validated tasks → Forall validated (assign_ids tasks).
Proof.
  rewrite !Forall_lookup. intros Hall i t'. rewrite assign_ids_lookup.
  destruct (tasks !! i) as [t|] eqn:Hi; simpl; [|done]. intros [= <-].
  specialize (Hall i t Hi). destruct (t !! "id") eqn:Hid; [done|].
  destruct Hall as [Htitle Hdue Hhours Himp _ Hdeps].
  split; rewrite ?lookup_insert_ne by done; try done.
  right. exists (Z.of_nat i + 1). by rewrite lookup_insert_eq.
Qed.

Lemma default_weights_lookup :
  weight DEFAULT_WEIGHTS "urgency" 0.4 = 0.4%float
  ∧ weight DEFAULT_WEIGHTS "importance" 0.4 = 0.4%float
  ∧ weight DEFAULT_WEIGHTS "effort" 0.15 = 0.15%float
  ∧ weight DEFAULT_WEIGHTS "dependency" 0.05 = 0.05%float.
Proof. by vm_compute. Qed.

Lemma importance_number i :
  1 ≤ i ≤ 10 → ∃ f, float_of_int i = Ok f ∧ nonneg_number (Prim2SF f).
Proof.
  intros Hi.
  assert (i = 1 ∨ i = 2 ∨ i = 3 ∨ i = 4 ∨ i = 5 ∨ i = 6 ∨ i = 7 ∨ i = 8 ∨ i = 9 ∨ i = 10)
    as Hcases by lia.
  repeat (destruct Hcases as [->|Hcases]); try subst i;
    (eexists; split; [vm_compute; reflexivity|by vm_compute]).
Qed.

Lemma urgency_number today due : nonneg_number (Prim2SF (calculate_urgency today due)).
Proof. unfold calculate_urgency. repeat case_match; by vm_compute. Qed.

Section Analyze.
Context {R : PyRuntime}.

Lemma validated_deps (t : task) :
  validated t → ∃ l, py_or (dict_get t "dependencies") (VList []) = VList l.
Proof.
  intros [_ _ _ _ _ [Hd|[l Hd]]]; unfold dict_get; rewrite Hd; simpl.
  - by eexists.
  - destruct l; by eexists.
Qed.

Lemma validated_deps_iterable (t : task) : validated t → deps_iterable t.
Proof. intros [l Hl]%validated_deps. unfold deps_iterable. rewrite Hl. by eexists. Qed.

(** A validated task is scored, and its score is a number. *)
Lemma validated_score today (t : task) all_tasks :
  rounds_numbers R → validated t →
  ∃ s, calculate_priority today t all_tasks DEFAULT_WEIGHTS = Ok s ∧ is_nan s = false.
Proof.
  intros Hround Hv. destruct (validated_deps t Hv) as [deps Hdeps].
  destruct Hv as [_ [d Hd] (h & Hh & Hh0) (i & Hi & Hi1) _ _].
  destruct (importance_number i Hi1) as (fi & Hfi & Hfin).
  pose proof (float_add_one_nonzero h Hh0) as Hnz.
  destruct default_weights_lookup as (Hwu & Hwi & Hwe & Hwd).
  unfold calculate_priority, dict_item, dict_get_default, calculate_effort_score,
    float_div.
  rewrite Hd, Hi, Hh, Hdeps. simpl. rewrite Hfi. simpl. rewrite Hnz. simpl.
  rewrite Hwu, Hwi, Hwe, Hwd. eexists. split; [done|].
  apply Hround, weighted_sum_number; try (by eexists _, _; vm_compute).
  - apply urgency_number.
  - done.
  - rewrite div_spec. change (Prim2SF 10) with (S754_finite false 5629499534213120 (-49)).
    apply SFdiv_nonneg. by apply add_one_positive.
  - apply of_uint63_nonneg.
Qed.

Lemma score_each_spec today all_tasks tasks :
  rounds_numbers R → Forall validated tasks →
  ∃ scored, score_each today all_tasks DEFAULT_WEIGHTS tasks = Ok scored
    ∧ Forall2 (λ t x, ∃ s, calculate_priority today t all_tasks DEFAULT_WEIGHTS = Ok s
                           ∧ is_nan s = false ∧ x = <["score" := VFloat s]> t)
        tasks scored.
Proof.
  intros Hround. induction 1 as [|t tasks Ht _ (scored & Hs & Hall)]; simpl.
  - exists []. by split.
  - destruct (validated_score today t all_tasks Hround Ht) as (s & Hscore & Hnan).
    rewrite Hscore. simpl. rewrite Hs. simpl. eexists. split; [done|]. constructor; [|done].
    exists s. by split_and!.
Qed.

Lemma with_keys_spec (items : list task) :
  Forall (λ x, ∃ s, x !! "score" = Some (VFloat s) ∧ is_nan s = false) items →
  ∃ keyed, with_keys items = Ok keyed ∧ keyed.*2 = items
    ∧ Forall (λ p, p.1 = score_of p.2 ∧ is_nan p.1 = false) keyed.
Proof.
  induction 1 as [|x items (s & Hx & Hnan) _ (keyed & Hk & Hsnd & Hall)]; simpl.
  - exists []. by split_and!.
  - unfold item_score, dict_item. rewrite Hx. simpl. rewrite Hk. simpl.
    eexists. split; [done|]. split; [by rewrite fmap_cons, Hsnd|].
    constructor; [|done]. simpl. split; [|done]. unfold score_of. by rewrite Hx.
Qed.

Lemma sorted_by_score_spec (items : list task) :
  Forall (λ x, ∃ s, x !! "score" = Some (VFloat s) ∧ is_nan s = false) items →
  ∃ out, sorted_by_score items = Ok out ∧ out ≡ₚ items
    ∧ StronglySorted (λ a b, (score_of b <=? score_of a)%float = true) out.
Proof.
  intros (keyed & Hk & Hsnd & Hall)%with_keys_spec.
  unfold sorted_by_score. rewrite Hk. simpl. eexists. split; [done|]. split.
  - by rewrite sort_desc_perm, Hsnd.
  - assert (Forall (λ p, p.1 = score_of p.2 ∧ is_nan p.1 = false) (sort_desc keyed))
      as Hall' by (by rewrite sort_desc_perm).
    assert (StronglySorted key_ge (sort_desc keyed)) as Hsorted.
    { apply sort_desc_sorted. eapply Forall_impl; [done|]. by intros p [_ ?]. }
    clear Hk Hsnd Hall. induction Hsorted as [|p l Hs IH Hp]; simpl; [constructor|].
    apply Forall_cons in Hall' as [[Hp1 _] Hall']. constructor; [by apply IH|].
    rewrite Forall_fmap. rewrite Forall_forall in Hp, Hall'. apply Forall_forall.
    intros q Hq. simpl. destruct (Hall' q Hq) as [<- _]. rewrite <- Hp1. by apply Hp.
Qed.

(** What [assign_ids] leaves at position [i]. *)
Lemma assign_ids_at tasks i (t : task) :
  tasks !! i = Some t →
  ∃ t', assign_ids tasks !! i = Some t' ∧ t' !! "id" = Some (id_at i t)
        ∧ t' !! "dependencies" = t !! "dependencies".
Proof.
  intros Hi. rewrite assign_ids_lookup, Hi. simpl. eexists. split; [done|].
  unfold id_at. destruct (t !! "id") as [v|] eqn:Hid; simpl; [by rewrite Hid|].
  by rewrite lookup_insert_eq, lookup_insert_ne.
Qed.

(** The id of a validated task is a whole number, and not 0 unless the
    task carries the id 0 itself. *)
Lemma validated_id_at i (t : task) :
  validated t → id_truthy t → ∃ u, id_at i t = VInt u ∧ u ≠ 0.
Proof.
  intros [_ _ _ _ [Hid|[n Hid]] _] Htruthy; unfold id_at; rewrite Hid; simpl.
  - exists (Z.of_nat i + 1). split; [done|lia].
  - exists n. split; [done|]. specialize (Htruthy _ Hid). simpl in Htruthy.
    intros ->. done.
Qed.

Lemma explicit_id_eq (t : task) u : explicit_id t = Some u ↔ t !! "id" = Some (VInt u) ∧ u ≠ 0.
Proof.
  unfold explicit_id. destruct (t !! "id") as [[| |n| | | |]|]; try (split; [done|by intros [? ?]]).
  destruct (Z.eqb_spec n 0) as [->|Hn]; split.
  - done.
  - by intros [[= <-] ?].
  - by intros [= ->].
  - by intros [[= ->] _].
Qed.

(** On validated data with distinct ids, none of them 0, the edges of the
    graph that the detector builds are the dependencies of the batch. *)
Lemma analyze_graph_edges (validated_data : list task) (g : graph) :
  Forall validated validated_data → Forall id_truthy validated_data →
  NoDup (imap id_at validated_data) →
  build_graph (assign_ids validated_data) = Ok g →
  ∀ u v, edge g u v ↔ depends_on validated_data u v.
Proof.
  intros Hvalid Htruthy Hnd Hg.
  assert (∀ i t', assign_ids validated_data !! i = Some t' →
            ∃ t u, validated_data !! i = Some t ∧ id_at i t = VInt u
              ∧ explicit_id t' = Some u
              ∧ t' !! "dependencies" = t !! "dependencies" ∧ validated t) as Hat.
  { intros i t' Hi'. destruct (validated_data !! i) as [t|] eqn:Hi.
    - destruct (assign_ids_at validated_data i t Hi) as (t'' & Hi'' & Hid & Hdeps).
      rewrite Hi' in Hi''. injection Hi'' as <-.
      pose proof (proj1 (Forall_lookup _ _) Hvalid i t Hi) as Hv.
      pose proof (proj1 (Forall_lookup _ _) Htruthy i t Hi) as Ht.
      destruct (validated_id_at i t Hv Ht) as (u & Hu & Hu0).
      exists t, u. split_and!; try done. apply explicit_id_eq. by rewrite Hid, Hu.
    - by rewrite assign_ids_lookup, Hi in Hi'. }
  pose proof (assign_ids_validated validated_data Hvalid) as Hvalid'.
  assert (Forall (λ t, is_Some (explicit_id t)) (assign_ids validated_data)) as Hids.
  { apply Forall_lookup. intros i t' Hi'.
    destruct (Hat i t' Hi') as (t & u & _ & _ & Hu & _). by exists u. }
  assert (NoDup (explicit_id <$> assign_ids validated_data)) as Hnd'.
  { apply NoDup_alt. intros i j x. rewrite !list_lookup_fmap.
    destruct (assign_ids validated_data !! i) as [ti|] eqn:Hi; simpl; [|done].
    destruct (assign_ids validated_data !! j) as [tj|] eqn:Hj; simpl; [|done].
    intros [= <-] [= Heq].
    destruct (Hat i ti Hi) as (t1 & u1 & Hi1 & Hu1 & He1 & _).
    destruct (Hat j tj Hj) as (t2 & u2 & Hj2 & Hu2 & He2 & _).
    rewrite He1, He2 in Heq. injection Heq as ->.
    apply (proj1 (NoDup_alt _) Hnd i j (VInt u1)); rewrite list_lookup_imap.
    - by rewrite Hi1; simpl; rewrite Hu1.
    - by rewrite Hj2; simpl; rewrite Hu2. }
  assert (Forall deps_iterable (assign_ids validated_data)) as Hiter.
  { eapply Forall_impl; [exact Hvalid'|]. apply validated_deps_iterable. }
  intros u v.
  rewrite (build_graph_edges (assign_ids validated_data) g Hids Hnd' Hiter Hg).
  split.
  - intros (t' & l & [i Hi']%list_elem_of_lookup & Hu & Hl & Hv).
    destruct (Hat i t' Hi') as (t & u' & Hi & Hu' & He & Hdeps & Hval).
    rewrite Hu in He. injection He as <-.
    apply collect_deps_elem in Hv as (d & Hd & Hconv).
    unfold dict_get in Hl. rewrite Hdeps in Hl.
    destruct Hval as [_ _ _ _ _ [Hnone|[l0 Hsome]]].
    + rewrite Hnone in Hl. simpl in Hl. injection Hl as <-. by apply elem_of_nil in Hd.
    + rewrite Hsome in Hl. exists i, t, (VInt <$> l0). split_and!; try done.
      assert (l = VInt <$> l0) as -> by (by destruct l0; injection Hl as <-).
      apply list_elem_of_fmap in Hd as (n & -> & Hn). simpl in Hconv.
      injection Hconv as <-. by apply list_elem_of_fmap_2.
  - intros (i & t & deps & Hi & Hu & Hdeps & Hv).
    destruct (assign_ids_at validated_data i t Hi) as (t' & Hi' & Hid & Hdeps').
    destruct (Hat i t' Hi') as (t2 & u' & Hi2 & Hu' & He & _).
    rewrite Hi in Hi2. injection Hi2 as <-. rewrite Hu in Hu'. injection Hu' as <-.
    exists t', deps. split_and!; try done.
    + by eapply list_elem_of_lookup_2.
    + unfold dict_get. rewrite Hdeps', Hdeps. simpl.
      destruct deps; [by apply elem_of_nil in Hv|done].
    + apply collect_deps_elem. by exists (VInt v).
Qed.

Lemma analyze_graph_cycle (validated_data : list task) (g : graph) :
  Forall validated validated_data → Forall id_truthy validated_data →
  NoDup (imap id_at validated_data) →
  build_graph (assign_ids validated_data) = Ok g →
  has_cycle g ↔ cyclic validated_data.
Proof.
  intros Hvalid Htruthy Hnd Hg.
  pose proof (analyze_graph_edges validated_data g Hvalid Htruthy Hnd Hg) as Hedges.
  split; intros [u Hu]; exists u.
  - eapply tc_ext; [|done]. intros x y. by apply Hedges.
  - eapply tc_ext; [|done]. intros x y. by apply Hedges.
Qed.

End Analyze.

(** The chain of validated tasks has no cycle: every dependency points to
    the next id. *)
Lemma valid_chain_acyclic n : ¬ cyclic (valid_chain n).
Proof.
  assert (∀ u v, depends_on (valid_chain n) u v → u < v) as Hup.
  { intros u v (i & t & deps & Hi & Hu & Hdeps & Hv). unfold valid_chain in Hi.
    rewrite list_lookup_fmap in Hi.
    destruct (seqZ 1 (Z.of_nat n) !! i) as [k|] eqn:Hk; [|done].
    apply lookup_seqZ in Hk as [-> _]. injection Hi as <-.
    unfold id_at, test_task in Hu, Hdeps.
    rewrite !lookup_insert_ne, lookup_empty in Hu by done.
    rewrite !lookup_insert_ne, lookup_insert_eq in Hdeps by done.
    simpl in Hu. injection Hu as <-. injection Hdeps as <-.
    apply list_elem_of_singleton in Hv. injection Hv as ->. lia. }
  intros [u Hu].
  assert (∀ x y, tc (depends_on (valid_chain n)) x y → x < y) as Htc.
  { induction 1 as [x y Hxy|x y z Hxy _ IH]; [by apply Hup|].
    apply Hup in Hxy. lia. }
  apply Htc in Hu. lia.
Qed.

(** C7, as stated, fails. A chain of 1000 validated tasks, each depending
    on the next, has no cycle, yet with the 997 frames of the reference
    runtime the operation returns no scored list: the search raises
    [RecursionError]. And two validated tasks with the ids 0 and 5 that
    depend on each other are answered with 200 and a scored list: the
    detector keys the task with the id 0 by its position. *)
Lemma analyze_deep_chain_fails :
  ¬ cyclic (valid_chain 1000)
  ∧ AnalyzeTasks_post (R := ref_runtime) (Date 739585) (valid_chain 1000)
    = Raise RecursionError
  ∧ cyclic zero_id_batch
  ∧ ∃ out, AnalyzeTasks_post (R := ref_runtime) (Date 739585) zero_id_batch
           = Ok (Response (TaskList out) HTTP_200_OK).
Proof.
  split_and!.
  - apply valid_chain_acyclic.
  - vm_compute. reflexivity.
  - exists 0. apply tc_l with 5; [|apply tc_once].
    + exists 0%nat, (<["id" := VInt 0]> (test_task 739590 (VFloat 1) 5 [5])), [VInt 5].
      split_and!; [reflexivity..|]. apply list_elem_of_singleton. done.
    + exists 1%nat, (<["id" := VInt 5]> (test_task 739590 (VFloat 1) 5 [0])), [VInt 0].
      split_and!; [reflexivity..|]. apply list_elem_of_singleton. done.
  - eexists. vm_compute. reflexivity.
Qed.

Section AnalyzeContract.
Context {R : PyRuntime}.

(** C7, amended. On validated data whose ids (given, or the position
    counted from 1) are distinct and none of them 0, and with two more
    frames left than the batch has tasks: the analyze operation answers 400
    with the list of cycles (and no scored task) exactly when the
    dependencies of the batch lead from some task back to itself; otherwise
    it answers 200 with one scored entry per task, each the task with its
    priority stored under ["score"], arranged by descending score. *)
Theorem analyze_contract (today : date) (validated_data : list task) :
  rounds_numbers R → Forall validated validated_data →
  Forall id_truthy validated_data → NoDup (imap id_at validated_data) →
  (length validated_data + 2 ≤ recursion_frames)%nat →
  (cyclic validated_data ↔
     ∃ cs, cs ≠ []
       ∧ detect_circular_dependencies (assign_ids validated_data) = Ok cs
       ∧ AnalyzeTasks_post today validated_data
         = Ok (Response (CycleError "Circular dependencies detected" cs)
                        HTTP_400_BAD_REQUEST))
  ∧ (¬ cyclic validated_data →
       ∃ scored out,
         Forall2 (λ t x, ∃ s, calculate_priority today t (assign_ids validated_data)
                                DEFAULT_WEIGHTS = Ok s
                              ∧ x = <["score" := VFloat s]> t)
                 (assign_ids validated_data) scored
         ∧ AnalyzeTasks_post today validated_data
           = Ok (Response (TaskList out) HTTP_200_OK)
         ∧ out ≡ₚ scored
         ∧ length out = length validated_data
         ∧ StronglySorted (λ a b, (score_of b <=? score_of a)%float = true) out).
Proof.
  intros Hround Hvalid0 Htruthy Hnd Hroom.
  pose proof (assign_ids_validated validated_data Hvalid0) as Hvalid.
  pose proof (assign_ids_length validated_data) as Hlen.
  destruct (build_graph_from_total (assign_ids validated_data) 0 []) as [g Hg].
  { eapply Forall_impl; [exact Hvalid|]. apply validated_deps_iterable. }
  pose proof (analyze_graph_cycle validated_data g Hvalid0 Htruthy Hnd Hg) as Hcyclic.
  rewrite <- Hcyclic. clear Hcyclic Htruthy Hnd Hvalid0.
  set (tasks := assign_ids validated_data) in *.
  destruct (detect_total tasks g Hg) as (cs & Hdetect & Hfind); [lia|].
  destruct (score_each_spec today tasks tasks Hround Hvalid) as (scored & Hscored & Hall).
  destruct (sorted_by_score_spec scored) as (out & Hout & Hperm & Hsorted).
  { clear Hscored. induction Hall as [|t x ts xs (s & _ & Hnan & ->) _ IH];
      constructor; [|done]. exists s. by rewrite lookup_insert_eq. }
  unfold AnalyzeTasks_post, check_and_respond_cycles. fold tasks. rewrite Hdetect.
  destruct cs as [|c cs]; simpl.
  - pose proof (find_cycles_complete g recursion_frames Hfind) as Hacyclic. split.
    + split; [done|]. by intros (cs' & Hne & [= <-] & _).
    + intros _. unfold score_tasks. rewrite Hscored. simpl. rewrite Hout. simpl.
      exists scored, out. split_and!; try done.
      * eapply Forall2_impl; [done|]. intros t x (s & ? & _ & ?). by exists s.
      * by rewrite Hperm, <- (Forall2_length _ _ _ Hall).
  - assert (has_cycle g) as Hcycle by (by eapply find_cycles_sound).
    split; [|done]. split; [|done]. intros _. by exists (c :: cs).
Qed.

End AnalyzeContract.

Lemma sample_batch_validated : Forall validated sample_batch.
Proof.
  apply Forall_cons; split; [|apply Forall_cons; split; [|apply Forall_nil_2]].
  - split; [by eexists|by eexists| | |by left|by left].
    + eexists. split; reflexivity.
    + eexists. split; [reflexivity|lia].
  - split; [by eexists|by eexists| | |by left|right; by exists [1]].
    + eexists. split; reflexivity.
    + eexists. split; [reflexivity|lia].
Defined.

Lemma analyze_contract_witness :
  (cyclic sample_batch ↔
     ∃ cs, cs ≠ []
       ∧ detect_circular_dependencies (R := ref_runtime) (assign_ids sample_batch)
         = Ok cs
       ∧ AnalyzeTasks_post (R := ref_runtime) (Date 739585) sample_batch
         = Ok (Response (CycleError "Circular dependencies detected" cs)
                        HTTP_400_BAD_REQUEST))
  ∧ (¬ cyclic sample_batch →
       ∃ scored out,
         Forall2 (λ t x, ∃ s, calculate_priority (R := ref_runtime) (Date 739585) t
                                (assign_ids sample_batch) DEFAULT_WEIGHTS = Ok s
                              ∧ x = <["score" := VFloat s]> t)
                 (assign_ids sample_batch) scored
         ∧ AnalyzeTasks_post (R := ref_runtime) (Date 739585) sample_batch
           = Ok (Response (TaskList out) HTTP_200_OK)
         ∧ out ≡ₚ scored
         ∧ length out = length sample_batch
         ∧ StronglySorted (λ a b, (score_of b <=? score_of a)%float = true) out).
Proof.
  apply (analyze_contract (R := ref_runtime) (Date 739585) sample_batch
           ref_round3_number sample_batch_validated).
  - repeat constructor; intros v Hv; discriminate Hv.
  - change (NoDup [VInt 1; VInt 2]). apply NoDup_cons. split; [|apply NoDup_singleton].
    intros Hin%list_elem_of_singleton. discriminate Hin.
  - simpl. lia.
Defined.

(** * The repository's tests, on a fixed current date

    [tests.py] compares priorities computed with the default weights; here
    the current date is 2025-11-30 (ordinal 739585). *)

Example test_overdue_has_higher_score_than_future :
  test_priority (test_task 739583 (VInt 3) 5 []) = Ok 6.375%float
  ∧ test_priority (test_task 739590 (VInt 3) 5 []) = Ok 4.375%float
  ∧ (4.375 <? 6.375)%float = true.
Proof. by vm_compute. Qed.

Example test_quick_win_boosts_score :
  test_priority (test_task 739590 (VFloat 0.5) 4 []) = Ok 4.6%float
  ∧ test_priority (test_task 739590 (VInt 8) 4 []) = Ok 3.767%float
  ∧ (3.767 <? 4.6)%float = true.
Proof. by vm_compute. Qed.

Example test_dependency_increases_priority :
  test_priority (test_task 739595 (VInt 3) 6 [2]) = Ok 4.025%float
  ∧ test_priority (test_task 739595 (VInt 2) 5 []) = Ok 3.7%float
  ∧ (3.7 <? 4.025)%float = true.
Proof. by vm_compute. Qed.

Example analyze_sample_batch :
  (λ r, match r with
        | Ok (Response (TaskList items) code) =>
            Some (score_of <$> items, (λ x, dict_get x "id") <$> items, code)
        | _ => None
        end) (AnalyzeTasks_post (R := ref_runtime) (Date 739585) sample_batch)
  = Some ([8.65%float; 3.767%float], [VInt 2; VInt 1], 200).
Proof. by vm_compute. Qed.

(** * Further properties of the detector *)

(** X1. With two more frames left than the graph has keys the search
    returns; and whenever it returns, it reports at least one cycle exactly
    when the graph has one. *)
Theorem detector_sound_and_complete (frames : nat) (g : graph) :
  ((length g + 2 ≤ frames)%nat → ∃ cs, find_cycles frames g = Ok cs)
  ∧ ∀ cs, find_cycles frames g = Ok cs → (cs ≠ [] ↔ has_cycle g).
Proof.
  split; [apply find_cycles_total|]. intros cs Hcs. split.
  - by apply (find_cycles_sound g frames).
  - intros Hcycle ->. by apply (find_cycles_complete g frames).
Qed.

(** X2. With two more frames left than the graph has keys the search
    returns; and whenever it returns, the report holds no cycle twice, each
    reported cycle has at least two entries, and all its entries are keys
    of the graph. *)
Theorem reported_cycles_shape (frames : nat) (g : graph) :
  ((length g + 2 ≤ frames)%nat → ∃ cs, find_cycles frames g = Ok cs)
  ∧ ∀ cs, find_cycles frames g = Ok cs →
      NoDup cs ∧ ∀ c, c ∈ cs → (2 ≤ length c)%nat ∧ ∀ x, x ∈ c → x ∈ graph_keys g.
Proof.
  split; [apply find_cycles_total|]. intros cs Hcs. split.
  - by apply (find_cycles_nodup g frames).
  - intros c Hc. split; [by apply (find_cycles_length g frames cs)|].
    intros x Hx. by eapply graph_get_keys, find_cycles_nodes.
Qed.

(** * Further properties of the detector, continued *)

(** X3. Every reported cycle is a simple closed path of the graph: it ends
    where it starts, passes through no other node twice, each entry lists
    the next one among its dependencies, and its first entry is the least
    of its nodes. The search returns such a report when two more frames
    are left than the graph has keys. *)
Theorem reported_cycles_simple (frames : nat) (g : graph) :
  ((length g + 2 ≤ frames)%nat → ∃ cs, find_cycles frames g = Ok cs)
  ∧ ∀ cs c, find_cycles frames g = Ok cs → c ∈ cs → simple_cycle g c.
Proof.
  split; [apply find_cycles_total|]. intros cs c Hcs Hc. by eapply find_cycles_simple.
Qed.

(** X4. Canonicalization does not depend on where the search met the
    cycle: the closed paths through a rotation [l2 ++ l1] and through
    [l1 ++ l2] have the same canonical form. *)
Theorem canonical_rotation (l1 l2 : list Z) :
  NoDup (l1 ++ l2) → canonical (closed (l1 ++ l2)) = canonical (closed (l2 ++ l1)).
Proof.
  intros Hnd. destruct (decide (l1 ++ l2 = [])) as [Hnil|Hne].
  { apply app_eq_nil in Hnil as [-> ->]. done. }
  destruct (least_entry (l1 ++ l2) Hne) as (a & m & b & Heq & Hmin).
  assert (m ∈ l1 ++ l2) as Hm by (rewrite Heq, elem_of_app, elem_of_cons; tauto).
  assert (NoDup (l2 ++ l1)) as Hnd' by (by rewrite (Permutation_app_comm l2 l1)).
  assert (∀ y, y ∈ l2 ++ l1 → m ≤ y) as Hmin'.
  { intros y Hy. apply Hmin. by rewrite (Permutation_app_comm l1 l2). }
  clear Heq a b. apply elem_of_app in Hm as [Hm|Hm];
    apply list_elem_of_split in Hm as (a & b & ->).
  - rewrite <- (app_assoc a (m :: b) l2) in Hnd, Hmin |- *. simpl in Hnd, Hmin |- *.
    rewrite (app_assoc l2 a (m :: b)) in Hnd', Hmin' |- *.
    rewrite !canonical_closed by done. by rewrite <- !app_assoc.
  - rewrite <- (app_assoc a (m :: b) l1) in Hnd', Hmin' |- *. simpl in Hnd', Hmin' |- *.
    rewrite (app_assoc l1 a (m :: b)) in Hnd, Hmin |- *.
    rewrite !canonical_closed by done. by rewrite <- !app_assoc.
Qed.

Lemma canonical_rotation_witness :
  canonical (closed ([5; 2] ++ [7; 3])) = canonical (closed ([7; 3] ++ [5; 2])).
Proof. apply (canonical_rotation [5; 2] [7; 3]). compute_done. Defined.

(** X5. Every self-dependency is reported: when task [k] lists [k] among
    its dependencies, the closed path [k, k] is among the cycles of every
    report, and the search returns a report when two more frames are left
    than the graph has keys. *)
Theorem self_dependency_reported (frames : nat) (g : graph) (k : Z) :
  k ∈ graph_get g k →
  ((length g + 2 ≤ frames)%nat → ∃ cs, find_cycles frames g = Ok cs)
  ∧ ∀ cs, find_cycles frames g = Ok cs → [k; k] ∈ cs.
Proof.
  intros Hk. split; [apply find_cycles_total|]. intros cs Hcs.
  by eapply find_cycles_self_loop.
Qed.

Lemma self_dependency_reported_witness :
  ∃ cs, find_cycles 4 [(3, [4]); (4, [7; 4; 3])] = Ok cs ∧ [4; 4] ∈ cs.
Proof.
  destruct (self_dependency_reported 4 [(3, [4]); (4, [7; 4; 3])] 4) as [Hreturns Hin].
  - compute_done.
  - destruct Hreturns as [cs Hcs]; [simpl; lia|]. exists cs. split; [exact Hcs|].
    apply Hin, Hcs.
Defined.

(** X6. A call of [dfs] that returns leaves the stack as it found it, and
    only extends the set of visited nodes, the list of recorded cycles and
    the set of their canonical forms. *)
Theorem dfs_keeps_stack (fuel : nat) (g : graph) (node : Z) (st st' : dfs_state) :
  dfs fuel g node st = Some st' → extends st st'.
Proof. apply dfs_extends. Qed.

Lemma dfs_keeps_stack_witness :
  ∃ st', dfs 4 [(1, [2]); (2, [1])] 1 dfs_init = Some st' ∧ extends dfs_init st'.
Proof.
  eexists. split; [reflexivity|].
  apply (dfs_keeps_stack 4 [(1, [2]); (2, [1])] 1). reflexivity.
Defined.

Section Graph.
Context {R : PyRuntime}.

(** X7. The dependency list stored for a task holds no id twice; it holds
    exactly the ids that [int] makes of the raw entries, in the order of the
    raw list. *)
Theorem collect_deps_dedup (deps_raw : list value) :
  NoDup (collect_deps deps_raw)
  ∧ collect_deps deps_raw `sublist_of` dep_ids deps_raw
  ∧ ∀ x, x ∈ collect_deps deps_raw ↔ ∃ d, d ∈ deps_raw ∧ py_int d = Ok x.
Proof.
  destruct (collect_from_spec deps_raw [] NoDup_nil_2) as (new & Heq & Hnd & Hsub & Hall).
  simpl in *. unfold collect_deps. rewrite Heq. split_and!; try done.
  intros x. split.
  - intros Hx. eapply elem_of_sublist in Hx; [|done]. unfold dep_ids in Hx.
    apply list_elem_of_omap in Hx as (d & Hd & Hconv). exists d. split; [done|].
    by destruct (py_int d); simplify_eq.
  - intros (d & Hd & Hconv). apply Hall. unfold dep_ids. apply list_elem_of_omap.
    exists d. split; [done|]. by rewrite Hconv.
Qed.

(** X8. In the graph of a batch no key occurs twice, the keys are exactly
    the ids of the tasks, and every adjacency list is free of repeats. *)
Theorem build_graph_wellformed (tasks : list task) (g : graph) :
  build_graph tasks = Ok g →
  NoDup (graph_keys g)
  ∧ (∀ k, k ∈ graph_keys g ↔ ∃ i t, tasks !! i = Some t ∧ task_id i t = Ok k)
  ∧ ∀ k, NoDup (graph_get g k).
Proof.
  intros Hb. split_and!.
  - eapply build_graph_from_nodup; [done|]. apply NoDup_nil_2.
  - intros k. split; [by apply build_graph_keys|].
    intros (i & t & Hi & Hid). by eapply (build_graph_from_has_key tasks 0 [] g i t).
  - eapply build_graph_from_lists_nodup; [done|]. intros k. apply NoDup_nil_2.
Qed.

(** X9. When several tasks of a batch have the same id, the dependencies
    of the last of them are the ones the graph keeps. *)
Theorem build_graph_last_wins (tasks : list task) (g : graph) (i : nat) (t : task)
    (k : Z) (deps_raw : list value) :
  build_graph tasks = Ok g →
  tasks !! i = Some t → task_id i t = Ok k →
  (∀ j t', (i < j)%nat → tasks !! j = Some t' → task_id j t' ≠ Ok k) →
  py_iter (py_or (dict_get t "dependencies") (VList [])) = Ok deps_raw →
  graph_get g k = collect_deps deps_raw.
Proof. intros Hb. by apply (build_graph_from_last tasks 0 [] g). Qed.

(** X10. The detector already numbers the tasks without an id by their
    position, as [assign_ids] does: assigning ids first changes neither the
    graph nor the report. *)
Theorem detector_ignores_assign_ids (tasks : list task) :
  build_graph (assign_ids tasks) = build_graph tasks
  ∧ detect_circular_dependencies (assign_ids tasks) = detect_circular_dependencies tasks.
Proof.
  assert (build_graph (assign_ids tasks) = build_graph tasks) as Hg.
  { unfold build_graph, assign_ids. generalize (@nil (Z * list Z)).
    change (λ i t, match t !! "id" with
                   | Some _ => t
                   | None => <["id" := VInt (Z.of_nat i + 1)]> t
                   end)
      with (λ i (t : task), match t !! "id" with
                   | Some _ => t
                   | None => <["id" := VInt (Z.of_nat (0 + i) + 1)]> t
                   end).
    generalize 0%nat. induction tasks as [|t tasks IH]; intros idx g0; simpl; [done|].
    assert (task_id idx match t !! "id" with
                        | Some _ => t
                        | None => <["id" := VInt (Z.of_nat (idx + 0) + 1)]> t
                        end = task_id idx t) as ->.
    { destruct (t !! "id") eqn:Hid; [done|]. unfold task_id, dict_get.
      rewrite lookup_insert_eq, Hid. simpl. rewrite Nat.add_0_r.
      unfold py_or. by destruct (truthy _). }
    assert (dict_get match t !! "id" with
                     | Some _ => t
                     | None => <["id" := VInt (Z.of_nat (idx + 0) + 1)]> t
                     end "dependencies" = dict_get t "dependencies") as ->.
    { destruct (t !! "id"); [done|]. unfold dict_get. by rewrite lookup_insert_ne. }
    destruct (task_id idx t); [destruct (py_iter _); simpl; [|done]|].
    - rewrite <- (IH (S idx)). f_equal. apply imap_ext. intros i x _. simpl.
      by replace (idx + S i)%nat with (S idx + i)%nat by lia.
    - rewrite <- (IH (S idx)). f_equal. apply imap_ext. intros i x _. simpl.
      by replace (idx + S i)%nat with (S idx + i)%nat by lia. }
  split; [done|]. unfold detect_circular_dependencies. by rewrite Hg.
Qed.

End Graph.

Lemma build_graph_wellformed_witness :
  let batch := [dep_task 4 [1; 1; 9]; dep_task 2 [3]; dep_task 4 [2; 2]] in
  let g := [(4, [2]); (2, [3])] in
  NoDup (graph_keys g)
  ∧ (∀ k, k ∈ graph_keys g ↔ ∃ i t, batch !! i = Some t
                                     ∧ task_id (R := ref_runtime) i t = Ok k)
  ∧ ∀ k, NoDup (graph_get g k).
Proof.
  exact (build_graph_wellformed (R := ref_runtime)
           [dep_task 4 [1; 1; 9]; dep_task 2 [3]; dep_task 4 [2; 2]]
           [(4, [2]); (2, [3])] eq_refl).
Defined.

Lemma build_graph_last_wins_witness :
  graph_get [(4, [2]); (2, [3])] 4 = collect_deps (R := ref_runtime) [VInt 2; VInt 2].
Proof.
  apply (build_graph_last_wins (R := ref_runtime)
           [dep_task 4 [1; 1; 9]; dep_task 2 [3]; dep_task 4 [2; 2]]
           [(4, [2]); (2, [3])] 2 (dep_task 4 [2; 2]) 4 [VInt 2; VInt 2]);
    try reflexivity.
  intros j t' Hj Hlook. destruct j as [|[|[|j]]]; try lia. by destruct j.
Defined.

Section FalsyId.
Context {R : PyRuntime}.

(** X11. A task whose ["id"] is present but falsy (0, [None], an empty
    text) keeps that id under [assign_ids], while the graph keys it by its
    position counted from 1. *)
Theorem falsy_id_keyed_by_position (tasks : list task) (i : nat) (t : task)
    (v : value) (g : graph) :
  tasks !! i = Some t → t !! "id" = Some v → truthy v = false →
  build_graph tasks = Ok g →
  assign_ids tasks !! i = Some t
  ∧ task_id i t = Ok (Z.of_nat i + 1)
  ∧ Z.of_nat i + 1 ∈ graph_keys g.
Proof.
  intros Hi Hid Hfalsy Hg.
  assert (task_id i t = Ok (Z.of_nat i + 1)) as Htid.
  { unfold task_id, dict_get, py_or. by rewrite Hid; simpl; rewrite Hfalsy. }
  split_and!; [|done|].
  - by rewrite assign_ids_lookup, Hi; simpl; rewrite Hid.
  - by eapply (build_graph_from_has_key tasks 0 [] g i t).
Qed.

End FalsyId.

Lemma falsy_id_keyed_by_position_witness :
  let batch := [dep_task 5 []; dep_task 0 [0]] in
  assign_ids batch !! 1%nat = Some (dep_task 0 [0])
  ∧ task_id (R := ref_runtime) 1 (dep_task 0 [0]) = Ok (Z.of_nat 1 + 1)
  ∧ Z.of_nat 1 + 1 ∈ graph_keys [(5, []); (2, [0])].
Proof.
  exact (falsy_id_keyed_by_position (R := ref_runtime) [dep_task 5 []; dep_task 0 [0]]
           1 (dep_task 0 [0]) (VInt 0) [(5, []); (2, [0])]
           eq_refl eq_refl eq_refl eq_refl).
Defined.

(** * Further properties of the scorer *)

Lemma nonneg_leb_zero x : nonneg_number (Prim2SF x) → (0 <=? x)%float = true.
Proof.
  rewrite FloatAxioms.leb_spec. change (Prim2SF 0) with (S754_zero false).
  by destruct (Prim2SF x) as [[]|[]| |[] ? ?].
Qed.

Section ScorerMore.
Context {R : PyRuntime}.

(** X12. The two date readers agree: [_parse_date_safe] of the views
    returns a date exactly when [_ensure_date] of the scorer does, and the
    same one; it returns [None] exactly when [_ensure_date] raises. *)
Theorem parse_date_safe_agrees (d : value) :
  (∀ r, _parse_date_safe d = Some r ↔ _ensure_date d = Ok r)
  ∧ (_parse_date_safe d = None ↔ ∃ e, _ensure_date d = Raise e).
Proof.
  unfold _parse_date_safe, _ensure_date. split.
  - intros r. destruct d as [| | | |s|d|]; try (split; done).
    + destruct (fromisoformat s); [split; congruence|].
      destruct (fromisoformat (before_T s)); split; congruence.
    + split; congruence.
  - destruct d as [| | | |s|d|]; try (split; [by eexists|done]).
    + destruct (fromisoformat s); [split; [done|by intros [? ?]]|].
      destruct (fromisoformat (before_T s)); split; try done;
        [by intros [? ?]|by eexists].
    + split; [done|by intros [? ?]].
Qed.

(** X13. Urgency never rises as the due date moves away: of two due dates
    the later one has the lower or the same urgency, and every urgency
    lies between 3 and 10. *)
Theorem urgency_monotone (today d1 d2 : date) :
  toordinal d1 ≤ toordinal d2 →
  (calculate_urgency today d2 <=? calculate_urgency today d1)%float = true
  ∧ (3 <=? calculate_urgency today d2)%float = true
  ∧ (calculate_urgency today d1 <=? 10)%float = true.
Proof.
  intros Hle. unfold calculate_urgency, days_between.
  destruct (Z.ltb_spec (toordinal d1 - toordinal today) 0),
    (Z.eqb_spec (toordinal d1 - toordinal today) 0),
    (Z.leb_spec (toordinal d1 - toordinal today) 3),
    (Z.leb_spec (toordinal d1 - toordinal today) 7),
    (Z.ltb_spec (toordinal d2 - toordinal today) 0),
    (Z.eqb_spec (toordinal d2 - toordinal today) 0),
    (Z.leb_spec (toordinal d2 - toordinal today) 3),
    (Z.leb_spec (toordinal d2 - toordinal today) 7);
    try lia; by vm_compute.
Qed.

(** X14. The due-date phrase of an explanation and the urgency of the
    score follow the same thresholds: a phrase is present exactly when the
    urgency is 7 or more, ["Overdue"] goes with urgency 10 and
    ["Due today"] with urgency 9. *)
Theorem due_phrase_matches_urgency (today : date) (raw : value) (due : date) :
  _ensure_date raw = Ok due →
  (due_phrase today raw ≠ [] ↔ (7 <=? calculate_urgency today due)%float = true)
  ∧ (due_phrase today raw = ["Overdue"]
     ↔ (calculate_urgency today due =? 10)%float = true)
  ∧ (due_phrase today raw = ["Due today"]
     ↔ (calculate_urgency today due =? 9)%float = true)
  ∧ (length (due_phrase today raw) ≤ 1)%nat.
Proof.
  intros Hdue. apply (proj1 (parse_date_safe_agrees raw)) in Hdue.
  unfold due_phrase, calculate_urgency. rewrite Hdue.
  destruct (days_between due today <? 0); [|destruct (days_between due today =? 0);
    [|destruct (days_between due today <=? 3);
      [|destruct (days_between due today <=? 7)]]].
  all: split_and!; try (simpl; lia).
  all: split; intros H; vm_compute in H |- *; done.
Qed.

(** X15. For hours that are a number not below zero (plus infinity
    included) the effort score is defined, so no [ZeroDivisionError], and it
    is a number not below zero. *)
Theorem effort_score_defined (hours : value) (h : float) :
  py_float hours = Ok h → (0 <=? h)%float = true →
  ∃ s, calculate_effort_score hours = Ok s ∧ (0 <=? s)%float = true.
Proof.
  intros Hconv Hh. unfold calculate_effort_score, float_div. rewrite Hconv. simpl.
  rewrite (float_add_one_nonzero h Hh). eexists. split; [done|].
  apply nonneg_leb_zero. rewrite div_spec.
  change (Prim2SF 10) with (S754_finite false 5629499534213120 (-49)).
  apply SFdiv_nonneg. by apply add_one_positive.
Qed.

(** X16. What makes [calculate_priority] raise: a task without
    ["due_date"] raises [KeyError] whatever its other fields are, and hours
    that convert to [-1] raise [ZeroDivisionError]. *)
Theorem calculate_priority_raises (today : date) (t : task) (all_tasks : list task)
    (weights : gmap string float) :
  (t !! "due_date" = None →
   calculate_priority today t all_tasks weights = Raise (KeyError "due_date"))
  ∧ (∀ raw due importance,
       t !! "due_date" = Some raw → _ensure_date raw = Ok due →
       py_float (dict_get_default t "importance" (VInt 1)) = Ok importance →
       py_float (dict_get_default t "estimated_hours" (VInt 0)) = Ok (-1)%float →
       calculate_priority today t all_tasks weights = Raise ZeroDivisionError).
Proof.
  unfold calculate_priority, dict_item. split.
  - by intros ->.
  - intros raw due importance -> Hdue Himp Hhours. simpl.
    by rewrite Hdue; simpl; rewrite Himp; simpl; rewrite Hhours.
Qed.

(** X17. A task that passed validation is always scored: with the default
    weights [calculate_priority] returns, and its result is a number when
    [round] gives numbers for numbers. *)
Theorem validated_task_scored (today : date) (t : task) (all_tasks : list task) :
  rounds_numbers R → validated t →
  ∃ s, calculate_priority today t all_tasks DEFAULT_WEIGHTS = Ok s ∧ is_nan s = false.
Proof. apply validated_score. Qed.

End ScorerMore.

Lemma urgency_monotone_witness :
  (calculate_urgency (Date 739585) (Date 739590)
     <=? calculate_urgency (Date 739585) (Date 739586))%float = true
  ∧ (3 <=? calculate_urgency (Date 739585) (Date 739590))%float = true
  ∧ (calculate_urgency (Date 739585) (Date 739586) <=? 10)%float = true.
Proof. apply (urgency_monotone (Date 739585) (Date 739586) (Date 739590)). simpl. lia. Defined.

Lemma due_phrase_matches_urgency_witness :
  let today := Date 739585 in
  let raw := VStr "2025-12-01T08:30" in
  let due := Date 739586 in
  (due_phrase (R := ref_runtime) today raw ≠ []
   ↔ (7 <=? calculate_urgency today due)%float = true)
  ∧ (due_phrase (R := ref_runtime) today raw = ["Overdue"]
     ↔ (calculate_urgency today due =? 10)%float = true)
  ∧ (due_phrase (R := ref_runtime) today raw = ["Due today"]
     ↔ (calculate_urgency today due =? 9)%float = true)
  ∧ (length (due_phrase (R := ref_runtime) today raw) ≤ 1)%nat.
Proof.
  exact (due_phrase_matches_urgency (R := ref_runtime) (Date 739585)
           (VStr "2025-12-01T08:30") (Date 739586) eq_refl).
Defined.

Lemma effort_score_defined_witness :
  ∃ s, calculate_effort_score (R := ref_runtime) (VStr "2.5") = Ok s
       ∧ (0 <=? s)%float = true.
Proof.
  exact (effort_score_defined (R := ref_runtime) (VStr "2.5") 2.5%float eq_refl eq_refl).
Defined.

Lemma validated_task_scored_witness :
  ∃ s, calculate_priority (R := ref_runtime) (Date 739585)
         (test_task 739583 (VFloat 3) 5 [2]) [] DEFAULT_WEIGHTS = Ok s
       ∧ is_nan s = false.
Proof.
  apply (validated_task_scored (R := ref_runtime)); [apply ref_round3_number|].
  split.
  - by eexists.
  - by eexists.
  - eexists. split; reflexivity.
  - eexists. split; [reflexivity|lia].
  - by left.
  - right. by exists [2].
Defined.

Lemma calculate_priority_raises_witness :
  calculate_priority (R := ref_runtime) (Date 739585)
    (<["estimated_hours" := VStr "-1"]> sample_task) [] DEFAULT_WEIGHTS
  = Raise ZeroDivisionError.
Proof.
  apply (proj2 (calculate_priority_raises (R := ref_runtime) (Date 739585)
                  (<["estimated_hours" := VStr "-1"]> sample_task) [] DEFAULT_WEIGHTS)
           (VStr "2025-11-28T09:00:00") (Date 739583) 5%float); reflexivity.
Defined.

(** * Further properties of the views *)

(** Two keys equal to a third are not in strict order. *)
Lemma SFeqb_not_ltb x y k : SFeqb x k = true → SFeqb y k = true → SFltb x y = false.
Proof.
  unfold SFeqb, SFltb.
  destruct x as [[]|[]| |[] m1 e1], y as [[]|[]| |[] m2 e2], k as [[]|[]| |[] m3 e3];
    simpl; try done.
  all: change (Pos.compare_cont Eq) with Pos.compare.
  all: destruct (Z.compare_spec e1 e3), (Z.compare_spec e2 e3), (Z.compare_spec e1 e2);
    simpl; try done; try lia; subst.
  all: destruct (Pos.compare_spec m1 m3), (Pos.compare_spec m2 m3),
         (Pos.compare_spec m1 m2); simpl; try done; lia.
Qed.

Lemma float_eqb_not_ltb x y k :
  (x =? k)%float = true → (y =? k)%float = true → (x <? y)%float = false.
Proof. rewrite !FloatAxioms.eqb_spec, FloatAxioms.ltb_spec. apply SFeqb_not_ltb. Qed.

Lemma SFleb_not_ltb x y : SFleb y x = true → SFltb x y = false.
Proof.
  unfold SFleb, SFltb. rewrite (SFcompare_swap x y).
  by destruct (SFcompare x y) as [[]|].
Qed.

Lemma float_leb_not_ltb x y : (y <=? x)%float = true → (x <? y)%float = false.
Proof. rewrite FloatAxioms.leb_spec, FloatAxioms.ltb_spec. apply SFleb_not_ltb. Qed.

Section SortMore.
Context {A : Type}.
Implicit Types (x : float * A) (l : list (float * A)).

Lemma insert_desc_stable k x l : with_key k (insert_desc x l) = with_key k (x :: l).
Proof.
  unfold with_key. induction l as [|y l IH]; simpl; [done|].
  destruct (x.1 <? y.1)%float eqn:Hlt; [|done].
  rewrite (filter_cons _ y), IH, !filter_cons.
  destruct (decide ((y.1 =? k)%float = true)) as [Hy|Hy],
    (decide ((x.1 =? k)%float = true)) as [Hx|Hx]; try done.
  by rewrite (float_eqb_not_ltb _ _ _ Hx Hy) in Hlt.
Qed.

Lemma sort_desc_stable k l : with_key k (sort_desc l) = with_key k l.
Proof.
  induction l as [|x l IH]; simpl; [done|].
  rewrite insert_desc_stable. unfold with_key in *. by rewrite !filter_cons, IH.
Qed.

Lemma sort_desc_sorted_id l : StronglySorted key_ge l → sort_desc l = l.
Proof.
  induction 1 as [|x l Hs IH Hx]; simpl; [done|]. rewrite IH.
  destruct l as [|y l]; simpl; [done|].
  apply Forall_cons in Hx as [Hxy _]. by rewrite (float_leb_not_ltb _ _ Hxy).
Qed.

(** Sorting two lists that agree on the keys arranges them alike. *)
Lemma insert_desc_Forall2 {B} (P : A → B → Prop) x (x' : float * B) l
    (l' : list (float * B)) :
  x.1 = x'.1 → P x.2 x'.2 →
  Forall2 (λ p q, p.1 = q.1 ∧ P p.2 q.2) l l' →
  Forall2 (λ p q, p.1 = q.1 ∧ P p.2 q.2) (insert_desc x l) (insert_desc x' l').
Proof.
  intros Hk HP. induction 1 as [|y y' l l' [Hyk HyP] Hll IH]; simpl.
  - by constructor.
  - rewrite <- Hk, <- Hyk. destruct (x.1 <? y.1)%float.
    + by constructor.
    + constructor; [done|]. by constructor.
Qed.

Lemma sort_desc_Forall2 {B} (P : A → B → Prop) l (l' : list (float * B)) :
  Forall2 (λ p q, p.1 = q.1 ∧ P p.2 q.2) l l' →
  Forall2 (λ p q, p.1 = q.1 ∧ P p.2 q.2) (sort_desc l) (sort_desc l').
Proof.
  induction 1 as [|x x' l l' [Hk HP] _ IH]; simpl; [constructor|].
  by apply insert_desc_Forall2.
Qed.

End SortMore.

Lemma assign_ids_same tasks : Forall2 same_but_id (assign_ids tasks) tasks.
Proof.
  apply Forall2_same_length_lookup. split; [apply assign_ids_length|].
  intros i t' t. rewrite assign_ids_lookup. intros Ht' Ht. rewrite Ht in Ht'.
  simpl in Ht'. injection Ht' as <-. destruct (t !! "id") eqn:Hid; [by left|].
  right. by eexists.
Qed.

Section ViewsMore.
Context {R : PyRuntime}.

Lemma calculate_priority_same today t' t all' all w :
  same_but_id t' t →
  calculate_priority today t' all' w = calculate_priority today t all w.
Proof.
  intros [->|(v & _ & ->)]; [done|].
  unfold calculate_priority, dict_item, dict_get_default, dict_get.
  by rewrite !lookup_insert_ne by done.
Qed.

Lemma score_each_same today all' all w ts' ts :
  Forall2 same_but_id ts' ts →
  scores (score_each today all' w ts') = scores (score_each today all w ts).
Proof.
  unfold scores. induction 1 as [|t' t ts' ts Ht _ IH]; simpl; [done|].
  rewrite (calculate_priority_same today t' t all' all w Ht).
  destruct (calculate_priority today t all w) as [s|e]; simpl; [|done].
  destruct (score_each today all' w ts') as [sc'|e'],
    (score_each today all w ts) as [sc|e]; simpl in *; try done.
  - injection IH as IH. f_equal. f_equal; [|done].
    unfold score_of. by rewrite !lookup_insert_eq.
Qed.

Lemma score_each_items today all w tasks : ∀ scored,
  score_each today all w tasks = Ok scored ↔
  Forall2 (λ t item, ∃ s, calculate_priority today t all w = Ok s
                          ∧ item = <["score" := VFloat s]> t) tasks scored.
Proof.
  induction tasks as [|t tasks IH]; intros scored; simpl.
  - split; [intros [= <-]; constructor|by intros ->%Forall2_nil_inv_l].
  - split.
    + destruct (calculate_priority today t all w) as [s|e] eqn:Hs; simpl; [|done].
      destruct (score_each today all w tasks) as [rest|e] eqn:Hrest; simpl; [|done].
      intros [= <-]. constructor; [by exists s|]. by apply IH.
    + intros (item & rest & (s & Hs & ->) & Hrest & ->)%Forall2_cons_inv_l.
      apply IH in Hrest. by rewrite Hs, Hrest.
Qed.

Lemma score_each_raises today all w tasks : ∀ e,
  score_each today all w tasks = Raise e ↔
  ∃ i t, tasks !! i = Some t ∧ calculate_priority today t all w = Raise e
    ∧ ∀ j t', (j < i)%nat → tasks !! j = Some t' →
        ∃ s, calculate_priority today t' all w = Ok s.
Proof.
  induction tasks as [|t tasks IH]; intros e; simpl.
  - split; [done|]. by intros (i & t & Hi & _).
  - destruct (calculate_priority today t all w) as [s|e0] eqn:Hs; simpl.
    + destruct (score_each today all w tasks) as [rest|e1] eqn:Hrest; simpl.
      * split; [done|]. intros (i & t' & Hi & Hraise & Hbefore).
        destruct i as [|i]; simpl in Hi; [congruence|].
        assert (Ok rest = Raise e) as Habs; [|done].
        apply IH. exists i, t'. split_and!; try done.
        intros j t'' Hj Hj'. apply (Hbefore (S j) t''); [lia|done].
      * split.
        -- intros [= ->]. destruct (proj1 (IH e) eq_refl) as (i & t' & Hi & Hraise & Hbefore).
           exists (S i), t'. split_and!; try done.
           intros [|j] t'' Hj Hj'; simpl in Hj'; [injection Hj' as <-; by exists s|].
           apply (Hbefore j); [lia|done].
        -- intros (i & t' & Hi & Hraise & Hbefore).
           destruct i as [|i]; simpl in Hi; [congruence|].
           apply IH. exists i, t'. split_and!; try done.
           intros j t'' Hj Hj'. apply (Hbefore (S j) t''); [lia|done].
    + split.
      * intros [= ->]. exists 0%nat, t. split_and!; try done. intros j ? ?. lia.
      * intros (i & t' & Hi & Hraise & Hbefore). destruct i as [|i]; simpl in Hi.
        -- congruence.
        -- destruct (Hbefore 0%nat t) as [s Hs']; [lia|done|congruence].
Qed.

Lemma with_keys_scored (items : list task) :
  Forall scored_item items →
  ∃ keyed, with_keys items = Ok keyed ∧ keyed.*2 = items
    ∧ Forall (λ p, p.1 = score_of p.2) keyed.
Proof.
  intros Hall. destruct (with_keys_spec items Hall) as (keyed & Hk & Hsnd & Hkeys).
  exists keyed. split_and!; try done. eapply Forall_impl; [done|]. by intros p [? _].
Qed.

Lemma join_parts_nonempty parts : join_parts parts ≠ "".
Proof.
  unfold join_parts. destruct (String.eqb _ "") eqn:Heq; [done|].
  by apply String.eqb_neq in Heq.
Qed.

(** The explanation of a scored task that passed validation. *)
Lemma explain_validated today (t : task) s :
  validated t →
  ∃ e, e ≠ "" ∧ explain today (<["score" := VFloat s]> t)
                 = Ok (<["explanation" := VStr e]> (<["score" := VFloat s]> t)).
Proof.
  intros [_ _ _ (i & Hi & _) _ Hdeps].
  assert (∃ deps, default (VList []) (t !! "dependencies") = VList deps) as [deps Hd].
  { destruct Hdeps as [->|[l ->]]; by eexists. }
  unfold explain.
  rewrite (explanation_parts_eq today _ i deps); rewrite ?lookup_insert_ne by done;
    try done.
  simpl. eexists. split; [apply join_parts_nonempty|done].
Qed.

Lemma scored_explained today all w tasks scored :
  Forall validated tasks →
  Forall2 (λ t item, ∃ s, calculate_priority today t all w = Ok s
                          ∧ item = <["score" := VFloat s]> t) tasks scored →
  Forall (λ x, ∃ y, explained today x y) scored.
Proof.
  intros Hvalid Hscored. induction Hscored as [|t x ts xs (s & _ & ->) _ IH];
    [constructor|].
  apply Forall_cons in Hvalid as [Ht Hts]. constructor; [|by apply IH].
  destruct (explain_validated today t s Ht) as (e & He & Hexp).
  eexists. split; [done|]. by exists e.
Qed.

Lemma with_keys_length items keyed : with_keys items = Ok keyed → length keyed = length items.
Proof.
  revert keyed. induction items as [|x items IH]; intros keyed; simpl; [by intros [= <-]|].
  destruct (item_score x); simpl; [|done].
  destruct (with_keys items); simpl; [|done]. intros [= <-]. simpl.
  by rewrite (IH _ eq_refl).
Qed.

Lemma explain_each_explained today scored :
  Forall (λ x, ∃ y, explained today x y) scored →
  ∃ expl, explain_each today scored = Ok expl ∧ Forall2 (explained today) scored expl.
Proof.
  induction 1 as [|x scored [y Hy] _ (expl & Hexpl & Hall)]; simpl.
  - exists []. by split.
  - rewrite (proj1 Hy). simpl. rewrite Hexpl. simpl. eexists. split; [done|].
    by constructor.
Qed.

Lemma with_keys_explained today scored expl keyed :
  Forall2 (explained today) scored expl → with_keys scored = Ok keyed →
  ∃ keyed', with_keys expl = Ok keyed'
    ∧ Forall2 (λ p q, p.1 = q.1 ∧ explained today p.2 q.2) keyed keyed'.
Proof.
  intros Hall. revert keyed.
  induction Hall as [|x y scored expl Hxy _ IH]; intros keyed; simpl.
  - intros [= <-]. exists []. by split.
  - assert (item_score y = item_score x) as ->.
    { destruct Hxy as [_ (e & _ & ->)]. unfold item_score, dict_item.
      by rewrite lookup_insert_ne. }
    destruct (item_score x) as [k|]; simpl; [|done].
    destruct (with_keys scored) as [rest|]; simpl; [|done].
    intros [= <-]. destruct (IH rest eq_refl) as (rest' & -> & Hrest). simpl.
    eexists. split; [done|]. by constructor.
Qed.

End ViewsMore.

(** X18. After [assign_ids] every task has an ["id"]: its own if it had
    one, its position counted from 1 otherwise; no other field changes, and
    assigning ids a second time changes nothing. *)
Theorem assign_ids_idempotent (tasks : list task) :
  assign_ids (assign_ids tasks) = assign_ids tasks
  ∧ length (assign_ids tasks) = length tasks
  ∧ ∀ i t, tasks !! i = Some t →
      ∃ t', assign_ids tasks !! i = Some t'
        ∧ t' !! "id" = Some (default (VInt (Z.of_nat i + 1)) (t !! "id"))
        ∧ ∀ k, k ≠ "id" → t' !! k = t !! k.
Proof.
  split_and!.
  - apply list_eq. intros i. rewrite !assign_ids_lookup.
    destruct (tasks !! i) as [t|]; simpl; [|done]. f_equal.
    destruct (t !! "id") as [v|] eqn:Hid; [by rewrite Hid|].
    by rewrite lookup_insert_eq.
  - apply assign_ids_length.
  - intros i t Hi. rewrite assign_ids_lookup, Hi. simpl. eexists. split; [done|].
    destruct (t !! "id") as [v|] eqn:Hid; simpl.
    + by split.
    + split; [by rewrite lookup_insert_eq|]. intros k Hk. by rewrite lookup_insert_ne.
Qed.

Section ViewsExtras.
Context {R : PyRuntime}.

(** X19. Assigning ids has no effect on the scores: [score_tasks] gives
    the same scores, or raises the same exception, on the batch with ids
    assigned as on the batch as it came. *)
Theorem scores_ignore_assign_ids (today : date) (tasks : list task)
    (weights : gmap string float) :
  scores (score_tasks today (assign_ids tasks) weights)
  = scores (score_tasks today tasks weights).
Proof. apply score_each_same, assign_ids_same. Qed.

(** X20. [score_tasks] returns, in the order of the batch, each task with
    its priority stored under ["score"] and nothing else changed; it raises
    what the first task that cannot be scored raises. *)
Theorem score_tasks_items (today : date) (tasks : list task)
    (weights : gmap string float) :
  (∀ scored, score_tasks today tasks weights = Ok scored ↔
     Forall2 (λ t item, ∃ s, calculate_priority today t tasks weights = Ok s
                             ∧ item = <["score" := VFloat s]> t) tasks scored)
  ∧ (∀ e, score_tasks today tasks weights = Raise e ↔
       ∃ i t, tasks !! i = Some t
         ∧ calculate_priority today t tasks weights = Raise e
         ∧ ∀ j t', (j < i)%nat → tasks !! j = Some t' →
             ∃ s, calculate_priority today t' tasks weights = Ok s).
Proof. split; [apply score_each_items|apply score_each_raises]. Qed.

(** X21. Sorting by score is stable: the items that have one and the same
    score come out in the order in which they went in. *)
Theorem sorted_by_score_stable (items out : list task) (k : float) :
  Forall scored_item items → sorted_by_score items = Ok out →
  filter (λ x, (score_of x =? k)%float = true) out
  = filter (λ x, (score_of x =? k)%float = true) items.
Proof.
  intros (keyed & Hk & Hsnd & Hkeys)%with_keys_scored. unfold sorted_by_score.
  rewrite Hk. simpl. intros [= <-]. rewrite <- Hsnd.
  assert (∀ l : list (float * task), Forall (λ p, p.1 = score_of p.2) l →
            filter (λ x, (score_of x =? k)%float = true) l.*2 = (with_key k l).*2) as Hfil.
  { intros l. unfold with_key. induction 1 as [|p l Hp _ IH]; [done|].
    rewrite fmap_cons, !filter_cons, <- Hp, IH. by case_decide. }
  rewrite !Hfil; [|done|by rewrite sort_desc_perm]. by rewrite sort_desc_stable.
Qed.

(** X22. Items that already come by descending score are returned in the
    order given. *)
Theorem sorted_by_score_of_sorted (items : list task) :
  Forall scored_item items →
  StronglySorted (λ a b, (score_of b <=? score_of a)%float = true) items →
  sorted_by_score items = Ok items.
Proof.
  intros (keyed & Hk & Hsnd & Hkeys)%with_keys_scored Hsorted. unfold sorted_by_score.
  rewrite Hk. simpl. rewrite sort_desc_sorted_id; [by rewrite Hsnd|].
  clear Hk. subst items. induction keyed as [|p keyed IH]; [constructor|].
  apply Forall_cons in Hkeys as [Hp Hkeys]. rewrite fmap_cons in Hsorted.
  apply StronglySorted_inv in Hsorted as [Hs Hall].
  constructor; [by apply IH|]. rewrite Forall_fmap in Hall.
  rewrite Forall_forall in Hall, Hkeys. apply Forall_forall. intros q Hq.
  unfold key_ge. rewrite Hp, (Hkeys q Hq). by apply Hall.
Qed.

(** X23. On validated data the suggest operation answers as the analyze
    operation does, cut to three: the same 400 response when there is a
    cycle, and otherwise 200 with the first three items of the analyze
    response, each with a non-empty ["explanation"] added. *)
Theorem suggest_is_top3_of_analyze (today : date) (validated_data : list task) :
  Forall validated validated_data →
  (∀ cs, AnalyzeTasks_post today validated_data
         = Ok (Response (CycleError "Circular dependencies detected" cs)
                        HTTP_400_BAD_REQUEST) →
         SuggestTasks_post today validated_data
         = Ok (Response (CycleError "Circular dependencies detected" cs)
                        HTTP_400_BAD_REQUEST))
  ∧ (∀ out, AnalyzeTasks_post today validated_data
            = Ok (Response (TaskList out) HTTP_200_OK) →
       ∃ top, SuggestTasks_post today validated_data
              = Ok (Response (Top3 top) HTTP_200_OK)
         ∧ length top = min 3 (length validated_data)
         ∧ Forall2 (λ x y, explain today x = Ok y
                           ∧ ∃ e, e ≠ "" ∧ y = <["explanation" := VStr e]> x)
                   (take 3 out) top).
Proof.
  intros Hvalid%assign_ids_validated.
  unfold AnalyzeTasks_post, SuggestTasks_post.
  pose proof (assign_ids_length validated_data) as Hlen.
  set (tasks := assign_ids validated_data) in *.
  unfold check_and_respond_cycles.
  destruct (detect_circular_dependencies tasks) as [[|c cs]|e]; simpl;
    [|by split..].
  split; [by destruct (score_tasks _ _ _) as [scored|]; simpl;
            [destruct (sorted_by_score scored)|]|].
  destruct (score_tasks today tasks DEFAULT_WEIGHTS) as [scored|e] eqn:Hscored;
    simpl; [|done].
  apply score_each_items in Hscored.
  pose proof (scored_explained today tasks DEFAULT_WEIGHTS tasks scored Hvalid Hscored)
    as Hex.
  destruct (explain_each_explained today scored Hex) as (expl & -> & Hall). simpl.
  intros out. unfold sorted_by_score.
  destruct (with_keys scored) as [keyed|] eqn:Hkeyed; simpl; [|done].
  intros [= <-].
  destruct (with_keys_explained today scored expl keyed Hall Hkeyed)
    as (keyed' & -> & Hkeys). simpl.
  apply (sort_desc_Forall2 (explained today)) in Hkeys.
  eexists. split; [done|]. split.
  - rewrite length_take, length_fmap, <- (Forall2_length _ _ _ Hkeys), sort_desc_length.
    rewrite (with_keys_length scored keyed Hkeyed).
    by rewrite <- (Forall2_length _ _ _ Hscored), Hlen.
  - apply Forall2_take, Forall2_fmap. eapply Forall2_impl; [done|]. by intros p q [_ ?].
Qed.

End ViewsExtras.

Lemma sorted_by_score_stable_witness :
  let a := <["title" := VStr "a"]> (<["score" := VFloat 2]> ∅) in
  let b := <["title" := VStr "b"]> (<["score" := VFloat 5]> ∅) in
  let c := <["title" := VStr "c"]> (<["score" := VFloat 2]> ∅) in
  filter (λ x, (score_of x =? 2)%float = true) [b; a; c]
  = filter (λ x, (score_of x =? 2)%float = true) [a; b; c].
Proof.
  apply (sorted_by_score_stable (R := ref_runtime)); [|reflexivity].
  repeat constructor; by eexists.
Defined.

Lemma sorted_by_score_of_sorted_witness :
  let b := <["title" := VStr "b"]> (<["score" := VFloat 5]> ∅) in
  let a := <["title" := VStr "a"]> (<["score" := VFloat 2]> ∅) in
  let c := <["title" := VStr "c"]> (<["score" := VFloat 2]> ∅) in
  sorted_by_score (R := ref_runtime) [b; a; c] = Ok [b; a; c].
Proof.
  apply (sorted_by_score_of_sorted (R := ref_runtime)).
  - repeat constructor; by eexists.
  - repeat constructor.
Defined.

Lemma suggest_is_top3_of_analyze_witness :
  (∀ cs, AnalyzeTasks_post (R := ref_runtime) (Date 739585) sample_batch
         = Ok (Response (CycleError "Circular dependencies detected" cs)
                        HTTP_400_BAD_REQUEST) →
         SuggestTasks_post (R := ref_runtime) (Date 739585) sample_batch
         = Ok (Response (CycleError "Circular dependencies detected" cs)
                        HTTP_400_BAD_REQUEST))
  ∧ (∀ out, AnalyzeTasks_post (R := ref_runtime) (Date 739585) sample_batch
            = Ok (Response (TaskList out) HTTP_200_OK) →
       ∃ top, SuggestTasks_post (R := ref_runtime) (Date 739585) sample_batch
              = Ok (Response (Top3 top) HTTP_200_OK)
         ∧ length top = min 3 (length sample_batch)
         ∧ Forall2 (λ x y, explain (R := ref_runtime) (Date 739585) x = Ok y
                           ∧ ∃ e, e ≠ "" ∧ y = <["explanation" := VStr e]> x)
                   (take 3 out) top).
Proof.
  apply (suggest_is_top3_of_analyze (R := ref_runtime)), sample_batch_validated.
Defined.

Section OrderTheorem.
Context {R : PyRuntime}.

(** X24. For tasks that carry distinct ids of their own, and with two more
    frames left than the batch has tasks, the detector returns for every
    order of the tasks, and whether it reports a cycle does not depend on
    that order (the cycles listed may differ). *)
Theorem verdict_order_independent (tasks tasks' : list task) :
  tasks ≡ₚ tasks' →
  Forall (λ t, is_Some (explicit_id t)) tasks → NoDup (explicit_id <$> tasks) →
  Forall deps_iterable tasks →
  (length tasks + 2 ≤ recursion_frames)%nat →
  ∃ cs cs', detect_circular_dependencies tasks = Ok cs
    ∧ detect_circular_dependencies tasks' = Ok cs'
    ∧ (cs = [] ↔ cs' = []).
Proof.
  intros Hperm Hids Hnd Hiter Hroom.
  assert (length tasks' + 2 ≤ recursion_frames)%nat as Hroom' by (by rewrite <- Hperm).
  assert (Forall (λ t, is_Some (explicit_id t)) tasks') as Hids' by (by rewrite <- Hperm).
  assert (NoDup (explicit_id <$> tasks')) as Hnd' by (by rewrite <- Hperm).
  assert (Forall deps_iterable tasks') as Hiter' by (by rewrite <- Hperm).
  destruct (build_graph_from_total tasks 0 [] Hiter) as [g Hg].
  destruct (build_graph_from_total tasks' 0 [] Hiter') as [g' Hg'].
  destruct (detect_total tasks g Hg Hroom) as (cs & Hd & Hf).
  destruct (detect_total tasks' g' Hg' Hroom') as (cs' & Hd' & Hf').
  exists cs, cs'. split_and!; try done.
  assert (∀ u v, edge g u v ↔ edge g' u v) as Hext.
  { intros u v. rewrite (build_graph_edges tasks g Hids Hnd Hiter Hg),
      (build_graph_edges tasks' g' Hids' Hnd' Hiter' Hg').
    by setoid_rewrite Hperm. }
  split; intros ->.
  - destruct cs' as [|c cs']; [done|]. exfalso.
    apply (find_cycles_complete g recursion_frames Hf), (has_cycle_ext g' g);
      [by intros; symmetry|].
    by apply (find_cycles_sound g' recursion_frames (c :: cs')).
  - destruct cs as [|c cs]; [done|]. exfalso.
    apply (find_cycles_complete g' recursion_frames Hf'), (has_cycle_ext g g'); [done|].
    by apply (find_cycles_sound g recursion_frames (c :: cs)).
Qed.

End OrderTheorem.

Lemma verdict_order_independent_witness :
  ∃ cs cs',
    detect_circular_dependencies (R := ref_runtime)
      [dep_task 1 [4; 2]; dep_task 4 [2]; dep_task 2 [3]; dep_task 3 [1]] = Ok cs
    ∧ detect_circular_dependencies (R := ref_runtime)
        [dep_task 4 [2]; dep_task 1 [4; 2]; dep_task 2 [3]; dep_task 3 [1]] = Ok cs'
    ∧ (cs = [] ↔ cs' = []).
Proof.
  apply (verdict_order_independent (R := ref_runtime)).
  - apply perm_swap.
  - repeat constructor; by eexists.
  - compute_done.
  - repeat constructor; by eexists.
  - simpl. lia.
Defined.
